(** * Identity reconciliation: a shallow embedding of the Go service

    The development follows [internal/service/reconciliation.go],
    [internal/models/contact.go], the HTTP handler and the SQL schema.

    - The [contacts] table is a list of rows in insertion order together
      with the auto-increment counter of the [id] column.
    - Every SQL statement the service issues is a primitive of a small
      state monad over the database; each primitive also appends the
      statement to a trace, so that "no store access" and "no write" are
      statements about the trace.
    - Go maps are [gmap]/[gset]; the order in which [range] visits a map is
      not specified by Go, so every [range] goes through an explicit
      iteration order [MapOrder], an arbitrary permutation.
    - [time.Now()] is an input of every call.
    - The database is assumed reliable: [Query], [QueryRow] and [Exec] never
      return an error, so the [if err != nil] branches of the source are
      dead in the model and are not represented.  The only failure left is
      the nil dereference [primaryContact.ID], modelled by [None]. *)

From stdpp Require Import gmap strings list fin_maps sorting.
From Stdlib Require Import ZArith Lia.

Open Scope string_scope.
Open Scope list_scope.
Open Scope Z_scope.

(** ** Data model ([internal/models/contact.go]) *)

(** [time.Time], as an integer count of clock ticks. *)
Definition Time := Z.

Record Contact := mkContact {
  ID : Z;
  PhoneNumber : option string;
  Email : option string;
  LinkedID : option Z;
  LinkPrecedence : string;
  CreatedAt : Time;
  UpdatedAt : Time;
  DeletedAt : option Time
}.

Record IdentifyRequest := mkRequest {
  reqEmail : option string;
  reqPhoneNumber : option string
}.

Record ContactResponse := mkResponse {
  PrimaryContactID : Z;
  Emails : list string;
  PhoneNumbers : list string;
  SecondaryContactIDs : list Z
}.

(** [IdentifyResponse] is a one-field wrapper around [ContactResponse]. *)
Record IdentifyResponse := mkIdentifyResponse { Contact_ : ContactResponse }.

#[global] Instance Contact_eq_dec : EqDecision Contact.
Proof. solve_decision. Defined.

(** ** The store *)

(** The SQL statements of the service. *)
Inductive Stmt :=
| SelectByEmail (email : string)
| SelectByPhoneNumber (phone : string)
| SelectByLinkedID (linkedID : Z)
| SelectGroup (primaryID : Z)
| InsertContact (row : Contact)
| UpdatePrecedence (id : Z) (precedence : string) (linkedID : option Z).

Record DB := mkDB {
  table : list Contact;   (* rows of [contacts], in insertion order *)
  seq : Z;                (* last value handed out for [id] *)
  trace : list Stmt       (* statements executed so far, oldest first *)
}.

Definition emptyDB : DB := mkDB [] 0 [].

(** State monad over the database. *)
Definition M (A : Type) : Type := DB → A * DB.

Definition ret {A} (a : A) : M A := λ db, (a, db).
Definition bind {A B} (m : M A) (k : A → M B) : M B :=
  λ db, let (a, db') := m db in k a db'.

Notation "x <- m ;; k" := (bind m (λ x, k))
  (at level 100, m at next level, right associativity).
Notation "m ;;; k" := (bind m (λ _, k))
  (at level 100, right associativity).

(** Order in which [range] visits the entries of a Go map. *)
Definition MapOrder := ∀ A : Type, list A → list A.

Definition fair (o : MapOrder) : Prop := ∀ A (l : list A), o A l ≡ₚ l.

Definition inOrder : MapOrder := λ _ l, l.

(** ** Queries *)

Definition live (c : Contact) : Prop := DeletedAt c = None.

(** [queryContacts]: run a SELECT and scan the rows. The WHERE clause is
    the predicate [P]. *)
Definition queryContacts (q : Stmt) (P : Contact → Prop)
    `{∀ c, Decision (P c)} : M (list Contact) :=
  λ db, (filter P (table db), mkDB (table db) (seq db) (trace db ++ [q])).

(** [WHERE email = $1 AND deleted_at IS NULL] *)
Definition queryContactsByEmail (email : string) : M (list Contact) :=
  queryContacts (SelectByEmail email)
    (λ c, Email c = Some email ∧ live c).

(** [WHERE phone_number = $1 AND deleted_at IS NULL] *)
Definition queryContactsByPhoneNumber (phone : string) : M (list Contact) :=
  queryContacts (SelectByPhoneNumber phone)
    (λ c, PhoneNumber c = Some phone ∧ live c).

(** [WHERE linked_id = $1 AND deleted_at IS NULL] *)
Definition queryContactsByLinkedID (linkedID : Z) : M (list Contact) :=
  queryContacts (SelectByLinkedID linkedID)
    (λ c, LinkedID c = Some linkedID ∧ live c).

(** [WHERE (id = $1 OR linked_id = $2) AND deleted_at IS NULL] *)
Definition getAllLinkedContacts (primaryID : Z) : M (list Contact) :=
  queryContacts (SelectGroup primaryID)
    (λ c, (ID c = primaryID ∨ LinkedID c = Some primaryID) ∧ live c).

(** ** Discovery *)

(** [for _, c := range contacts { contactMap[c.ID] = c }] *)
Definition storeAll (contacts : list Contact) (contactMap : gmap Z Contact)
    : gmap Z Contact :=
  foldl (λ m c, <[ID c := c]> m) contactMap contacts.

(** The values of a map in the order [range] yields them. *)
Definition rangeValues (o : MapOrder) (m : gmap Z Contact) : list Contact :=
  (o _ (map_to_list m)).*2.

(** [for linkedID := range allLinkedIDs { ... }] *)
Fixpoint fetchLinked (ids : list Z) (contactMap : gmap Z Contact)
    : M (gmap Z Contact) :=
  match ids with
  | [] => ret contactMap
  | linkedID :: rest =>
      linkedContacts <- queryContactsByLinkedID linkedID ;;
      fetchLinked rest (storeAll linkedContacts contactMap)
  end.

(** A pointer to a string that is neither nil nor empty. *)
Definition supplied (s : option string) : option string :=
  match s with
  | Some v => if decide (v = EmptyString) then None else Some v
  | None => None
  end.

Definition findLinkedContacts (o : MapOrder) (email phoneNumber : option string)
    : M (list Contact) :=
  contactMap <-
    match supplied email with
    | Some e => contacts <- queryContactsByEmail e ;; ret (storeAll contacts ∅)
    | None => ret ∅
    end ;;
  contactMap <-
    match supplied phoneNumber with
    | Some p =>
        contacts <- queryContactsByPhoneNumber p ;;
        ret (storeAll contacts contactMap)
    | None => ret contactMap
    end ;;
  let allLinkedIDs : gset Z :=
    foldl (λ s c, match LinkedID c with Some l => {[l]} ∪ s | None => s end)
          ∅ (rangeValues o contactMap) in
  contactMap <- fetchLinked (o _ (elements allLinkedIDs)) contactMap ;;
  ret (rangeValues o contactMap).

(** ** Choosing the primary *)

(** [contacts[i].CreatedAt.Before(contacts[j].CreatedAt)] *)
Definition before (c d : Contact) : bool := bool_decide (CreatedAt c < CreatedAt d).

(** [sort.Slice]: Go's insertion sort (the algorithm it runs on short
    slices).  It is stable; [sort.Slice] does not promise stability, but
    every sorted arrangement of a slice is the stable sort of one of its
    permutations, and the slice sorted here comes out of a [range] over a
    map, hence in any order already. *)
Fixpoint insertSorted (x : Contact) (l : list Contact) : list Contact :=
  match l with
  | [] => [x]
  | y :: r => if before x y then x :: y :: r else y :: insertSorted x r
  end.

Definition sortSlice (l : list Contact) : list Contact :=
  foldl (λ acc x, insertSorted x acc) [] l.

(** [findOldestContact] sorts the caller's slice in place and returns its
    first element: the result is the slice as the caller sees it
    afterwards, and the returned pointer ([None] for nil). *)
Definition findOldestContact (contacts : list Contact)
    : list Contact * option Contact :=
  match contacts with
  | [] => ([], None)
  | _ => let sorted := sortSlice contacts in (sorted, head sorted)
  end.

(** ** New information *)

Definition existingEmails (contacts : list Contact) : gset string :=
  foldl (λ s c, match Email c with Some e => {[e]} ∪ s | None => s end)
        ∅ contacts.

Definition existingPhones (contacts : list Contact) : gset string :=
  foldl (λ s c, match PhoneNumber c with Some p => {[p]} ∪ s | None => s end)
        ∅ contacts.

Definition hasNewInformation (contacts : list Contact)
    (email phoneNumber : option string) : bool :=
  let existingEmails := existingEmails contacts in
  let existingPhones := existingPhones contacts in
  if match supplied email with
     | Some e => negb (bool_decide (e ∈ existingEmails))
     | None => false
     end
  then true
  else if match supplied phoneNumber with
          | Some p => negb (bool_decide (p ∈ existingPhones))
          | None => false
          end
  then true
  else false.

(** ** Writes *)

Definition insertRow (row : Contact) : M Contact :=
  λ db, (row, mkDB (table db ++ [row]) (ID row) (trace db ++ [InsertContact row])).

Definition nextID : M Z := λ db, (seq db + 1, db).

(** [INSERT ... VALUES ($1, $2, 'primary', $3, $4) RETURNING id] *)
Definition createPrimaryContact (email phoneNumber : option string) (now : Time)
    : M Contact :=
  id <- nextID ;;
  insertRow (mkContact id phoneNumber email None "primary" now now None).

(** [INSERT ... VALUES ($1, $2, $3, 'secondary', $4, $5) RETURNING id] *)
Definition createSecondaryContact (email phoneNumber : option string)
    (linkedID : Z) (now : Time) : M Contact :=
  id <- nextID ;;
  insertRow (mkContact id phoneNumber email (Some linkedID) "secondary" now now None).

Definition setPrecedence (precedence : string) (linkedID : option Z)
    (now : Time) (c : Contact) : Contact :=
  mkContact (ID c) (PhoneNumber c) (Email c) linkedID precedence
            (CreatedAt c) now (DeletedAt c).

(** [UPDATE contacts SET link_precedence = $1, linked_id = $2,
    updated_at = $3 WHERE id = $4] *)
Definition updateContactPrecedence (id : Z) (precedence : string)
    (linkedID : option Z) (now : Time) : M unit :=
  λ db,
    (tt, mkDB ((λ c, if decide (ID c = id)
                     then setPrecedence precedence linkedID now c else c)
                 <$> table db)
              (seq db)
              (trace db ++ [UpdatePrecedence id precedence linkedID])).

Fixpoint reconcilePrimaryStatus (contacts : list Contact) (primaryID : Z)
    (now : Time) : M unit :=
  match contacts with
  | [] => ret tt
  | c :: rest =>
      (if decide (ID c = primaryID) then
         if decide (LinkPrecedence c ≠ "primary")
         then updateContactPrecedence (ID c) "primary" None now
         else ret tt
       else
         if decide (LinkPrecedence c ≠ "secondary" ∨ LinkedID c ≠ Some primaryID)
         then updateContactPrecedence (ID c) "secondary" (Some primaryID) now
         else ret tt) ;;;
      reconcilePrimaryStatus rest primaryID now
  end.

(** ** Response projection *)

(** State of the first loop of [buildResponse]. *)
Record Scan := mkScan {
  primaryEmail : string;
  primaryPhone : string;
  secondaryContactIDs : list Z
}.

Definition scanStep (primaryID : Z) (st : Scan) (c : Contact) : Scan :=
  if decide (ID c = primaryID) then
    mkScan (match Email c with Some e => e | None => primaryEmail st end)
           (match PhoneNumber c with Some p => p | None => primaryPhone st end)
           (secondaryContactIDs st)
  else
    mkScan (primaryEmail st) (primaryPhone st) (secondaryContactIDs st ++ [ID c]).

Definition scanContacts (primaryID : Z) (allContacts : list Contact) : Scan :=
  foldl (scanStep primaryID) (mkScan EmptyString EmptyString []) allContacts.

(** The second loop: values different from the empty string and from the
    primary's value, collected in a set. *)
Definition collect (field : Contact → option string) (primaryValue : string)
    (allContacts : list Contact) : gset string :=
  foldl (λ s c, match field c with
                | Some v => if decide (v ≠ EmptyString ∧ v ≠ primaryValue)
                            then {[v]} ∪ s else s
                | None => s
                end) ∅ allContacts.

Definition buildResponse (o : MapOrder) (primaryID : Z) : M IdentifyResponse :=
  allContacts <- getAllLinkedContacts primaryID ;;
  let st := scanContacts primaryID allContacts in
  let emails := if decide (primaryEmail st ≠ EmptyString) then [primaryEmail st] else [] in
  let phoneNumbers := if decide (primaryPhone st ≠ EmptyString) then [primaryPhone st] else [] in
  let emailSet := collect Email (primaryEmail st) allContacts in
  let phoneSet := collect PhoneNumber (primaryPhone st) allContacts in
  let emails := emails ++ o _ (elements emailSet) in
  let phoneNumbers := phoneNumbers ++ o _ (elements phoneSet) in
  ret (mkIdentifyResponse
         (mkResponse primaryID emails phoneNumbers (secondaryContactIDs st))).

(** ** The operation *)

(** [None] stands for the panic of [primaryContact.ID] on a nil pointer. *)
Definition Identify (o : MapOrder) (req : IdentifyRequest) (now : Time)
    : M (option IdentifyResponse) :=
  linkedContacts <- findLinkedContacts o (reqEmail req) (reqPhoneNumber req) ;;
  match linkedContacts with
  | [] =>
      primaryContact <- createPrimaryContact (reqEmail req) (reqPhoneNumber req) now ;;
      resp <- buildResponse o (ID primaryContact) ;;
      ret (Some resp)
  | _ =>
      let '(linkedContacts, oldest) := findOldestContact linkedContacts in
      match oldest with
      | None => ret None
      | Some primaryContact =>
          let hasNewInfo :=
            hasNewInformation linkedContacts (reqEmail req) (reqPhoneNumber req) in
          (if hasNewInfo
           then createSecondaryContact (reqEmail req) (reqPhoneNumber req)
                                       (ID primaryContact) now ;;; ret tt
           else ret tt) ;;;
          reconcilePrimaryStatus linkedContacts (ID primaryContact) now ;;;
          resp <- buildResponse o (ID primaryContact) ;;
          ret (Some resp)
      end
  end.

(** ** The HTTP handler *)

Inductive Reply :=
| HttpError (message : string) (code : Z)
| HttpOK (body : IdentifyResponse)
| HttpPanic.

Definition StatusBadRequest : Z := 400.
Definition StatusMethodNotAllowed : Z := 405.

(** [body] is the result of decoding the request body as JSON: [None] when
    decoding fails. *)
Definition Handle (o : MapOrder) (method : string)
    (body : option IdentifyRequest) (now : Time) : M Reply :=
  if decide (method ≠ "POST") then
    ret (HttpError "Method not allowed" StatusMethodNotAllowed)
  else
    match body with
    | None => ret (HttpError "Invalid JSON" StatusBadRequest)
    | Some req =>
        if decide ((reqEmail req = None ∨ reqEmail req = Some EmptyString) ∧
                   (reqPhoneNumber req = None ∨ reqPhoneNumber req = Some EmptyString))
        then ret (HttpError "Either email or phoneNumber must be provided"
                            StatusBadRequest)
        else
          response <- Identify o req now ;;
          match response with
          | Some r => ret (HttpOK r)
          | None => ret HttpPanic
          end
    end.

(** ** Sequences of calls *)

Record Call := mkCall {
  callOrder : MapOrder;
  callEmail : option string;
  callPhone : option string;
  callTime : Time
}.

Definition identify (c : Call) : M (option IdentifyResponse) :=
  Identify (callOrder c) (mkRequest (callEmail c) (callPhone c)) (callTime c).

(** Run the calls one after the other; the result is the store after the
    last one, or [None] if one of them did not return a response. *)
Fixpoint runCalls (calls : list Call) (db : DB) : option DB :=
  match calls with
  | [] => Some db
  | c :: rest =>
      match identify c db with
      | (Some _, db') => runCalls rest db'
      | (None, _) => None
      end
  end.

(** * Properties *)

(** ** The state monad *)

Lemma bind_eq {A B} (m : M A) (k : A → M B) db :
  bind m k db = k (m db).1 (m db).2.
Proof. unfold bind. by destruct (m db). Qed.

Lemma ret_eq {A} (a : A) db : ret a db = (a, db).
Proof. done. Qed.

(** ** Sorting by creation time *)

Definition notLater (c d : Contact) : Prop := CreatedAt c ≤ CreatedAt d.

Lemma insertSorted_perm x l : insertSorted x l ≡ₚ x :: l.
Proof.
  induction l as [|y r IH]; simpl; [done|].
  destruct (before x y); [done|].
  rewrite IH. apply perm_swap.
Qed.

Lemma sortSlice_from_perm l acc :
  foldl (λ acc x, insertSorted x acc) acc l ≡ₚ l ++ acc.
Proof.
  revert acc. induction l as [|x l IH]; intros acc; simpl; [done|].
  rewrite IH, insertSorted_perm. by rewrite Permutation_middle.
Qed.

Lemma sortSlice_perm l : sortSlice l ≡ₚ l.
Proof. unfold sortSlice. by rewrite sortSlice_from_perm, app_nil_r. Qed.

Lemma insertSorted_sorted x l :
  StronglySorted notLater l → StronglySorted notLater (insertSorted x l).
Proof.
  induction 1 as [|y r Hr IH Hy]; simpl.
  - repeat constructor.
  - unfold before. case_bool_decide as Hlt.
    + constructor; [by constructor|].
      constructor; [unfold notLater; lia|].
      eapply Forall_impl; [exact Hy|]. unfold notLater. intros; lia.
    + constructor; [done|].
      rewrite insertSorted_perm. constructor; [unfold notLater; lia|done].
Qed.

Lemma sortSlice_from_sorted l acc :
  StronglySorted notLater acc →
  StronglySorted notLater (foldl (λ acc x, insertSorted x acc) acc l).
Proof.
  revert acc. induction l as [|x l IH]; intros acc Hacc; simpl; [done|].
  by apply IH, insertSorted_sorted.
Qed.

Lemma sortSlice_sorted l : StronglySorted notLater (sortSlice l).
Proof. apply sortSlice_from_sorted. constructor. Qed.

Lemma findOldestContact_nonempty contacts :
  contacts ≠ [] →
  ∃ p rest, sortSlice contacts = p :: rest ∧
            findOldestContact contacts = (sortSlice contacts, Some p) ∧
            p ∈ contacts ∧
            ∀ c, c ∈ contacts → CreatedAt p ≤ CreatedAt c.
Proof.
  intros Hne.
  pose proof (sortSlice_perm contacts) as Hperm.
  pose proof (sortSlice_sorted contacts) as Hsorted.
  destruct (sortSlice contacts) as [|p rest] eqn:Hs.
  { symmetry in Hperm. by apply Permutation_nil_r in Hperm. }
  exists p, rest. split; [done|]. split.
  { unfold findOldestContact. destruct contacts; [done|]. by rewrite Hs. }
  split.
  { rewrite <- Hperm. left. }
  intros c Hc. rewrite <- Hperm in Hc.
  apply StronglySorted_inv in Hsorted as [_ Hall].
  apply elem_of_cons in Hc as [->|Hc]; [lia|].
  by eapply Forall_forall in Hall.
Qed.

(** ** Reading the store *)

(** What the schema and the engine guarantee of a store: [id] is a key,
    no [id] exceeds the auto-increment counter, and no [linked_id] refers
    beyond it. *)
Record consistent (db : DB) : Prop := mkConsistent {
  ids_unique : NoDup (ID <$> table db);
  ids_bounded : ∀ c, c ∈ table db → ID c ≤ seq db;
  links_bounded : ∀ c l, c ∈ table db → LinkedID c = Some l → l ≤ seq db
}.

(** Rows of the table that a query may return. *)
Definition stored (t : list Contact) (c : Contact) : Prop := c ∈ t ∧ live c.

Lemma queryContacts_eq q P `{∀ c, Decision (P c)} db :
  queryContacts q P db =
  (filter P (table db), mkDB (table db) (seq db) (trace db ++ [q])).
Proof. done. Qed.

Lemma storeAll_Forall (Q : Contact → Prop) contacts m :
  Forall Q contacts → map_Forall (λ _, Q) m → map_Forall (λ _, Q) (storeAll contacts m).
Proof.
  unfold storeAll. revert m.
  induction contacts as [|c cs IH]; intros m Hcs Hm; simpl; [done|].
  apply Forall_cons in Hcs as [Hc Hcs].
  apply IH; [done|]. by apply map_Forall_insert_2.
Qed.

Lemma filter_stored (P : Contact → Prop) `{∀ c, Decision (P c)} t :
  (∀ c, P c → live c) → Forall (stored t) (filter P t).
Proof.
  intros HP. apply Forall_forall. intros c Hc.
  apply list_elem_of_filter in Hc as [Hc Hin]. split; [done|by apply HP].
Qed.

Lemma fetchLinked_spec ids m db :
  map_Forall (λ _, stored (table db)) m →
  let r := fetchLinked ids m db in
  map_Forall (λ _, stored (table db)) r.1 ∧
  table r.2 = table db ∧ seq r.2 = seq db ∧
  trace r.2 = trace db ++ (SelectByLinkedID <$> ids).
Proof.
  revert m db. induction ids as [|i ids IH]; intros m db Hm; simpl.
  { by rewrite app_nil_r. }
  rewrite bind_eq. unfold queryContactsByLinkedID. rewrite queryContacts_eq. simpl.
  set (db1 := mkDB _ _ _).
  specialize (IH (storeAll (filter (λ c, LinkedID c = Some i ∧ live c) (table db)) m) db1).
  simpl in IH. destruct IH as (H1 & H2 & H3 & H4).
  { apply storeAll_Forall; [|done]. apply filter_stored. by intros c [_ ?]. }
  split_and!; try done.
  rewrite H4. by rewrite <- app_assoc.
Qed.

Lemma rangeValues_lookup o (m : gmap Z Contact) c :
  fair o → c ∈ rangeValues o m → ∃ k, m !! k = Some c.
Proof.
  intros Hfair Hc. unfold rangeValues in Hc.
  apply list_elem_of_fmap in Hc as ([k c'] & -> & Hin).
  rewrite (Hfair _ _) in Hin. apply elem_of_map_to_list in Hin. by exists k.
Qed.

(** The statements discovery issues, given what was supplied and the
    linked ids it went on to fetch. *)
Definition discoveryTrace (email phoneNumber : option string) (ids : list Z)
    : list Stmt :=
  match supplied email with Some e => [SelectByEmail e] | None => [] end ++
  match supplied phoneNumber with Some p => [SelectByPhoneNumber p] | None => [] end ++
  (SelectByLinkedID <$> ids).

Lemma findLinkedContacts_spec o email phoneNumber db :
  fair o →
  let r := findLinkedContacts o email phoneNumber db in
  Forall (stored (table db)) r.1 ∧
  table r.2 = table db ∧ seq r.2 = seq db ∧
  ∃ ids, trace r.2 = trace db ++ discoveryTrace email phoneNumber ids.
Proof.
  intros Hfair. unfold findLinkedContacts, discoveryTrace.
  assert (∀ (P : Contact → Prop) `{∀ c, Decision (P c)} m,
            (∀ c, P c → live c) → map_Forall (λ _, stored (table db)) m →
            map_Forall (λ _, stored (table db)) (storeAll (filter P (table db)) m))
    as Hstore.
  { intros P ? m HP Hm. apply storeAll_Forall; [|done]. by apply filter_stored. }
  destruct (supplied email) as [e|], (supplied phoneNumber) as [p|];
    rewrite ?bind_eq; simpl;
    match goal with |- context [fetchLinked ?ids ?m ?d] =>
      pose proof (fetchLinked_spec ids m d) as Hf;
      set (s3 := fetchLinked ids m d) in *
    end;
    simpl in Hf; destruct Hf as (Hm3 & Ht3 & Hs3 & Hl3);
    try (repeat (apply Hstore; [by intros c [_ ?]|]); apply map_Forall_empty);
    (split;
     [ apply Forall_forall; intros c Hc;
       apply (rangeValues_lookup _ _ _ Hfair) in Hc as [k Hk]; by apply (Hm3 k)
     | split_and!; [done|done|];
       eexists; rewrite Hl3; by rewrite <- ?app_assoc ]).
Qed.

Lemma filter_none {A} (P : A → Prop) `{∀ x, Decision (P x)} (l : list A) :
  Forall (λ x, ¬ P x) l → filter P l = [].
Proof.
  induction 1 as [|x l Hx _ IH]; [done|]. by rewrite filter_cons_False.
Qed.

(** ** Hierarchy normalization *)

(** The state [reconcilePrimaryStatus] leaves a record alone in. *)
Definition inTarget (primaryID : Z) (c : Contact) : Prop :=
  if decide (ID c = primaryID) then LinkPrecedence c = "primary"
  else LinkPrecedence c = "secondary" ∧ LinkedID c = Some primaryID.

#[global] Instance inTarget_dec primaryID c : Decision (inTarget primaryID c).
Proof. unfold inTarget. destruct (decide (ID c = primaryID)); apply _. Defined.

(** What an update of the pass writes into a row. *)
Definition normalized (primaryID : Z) (now : Time) (c : Contact) : Contact :=
  if decide (ID c = primaryID) then setPrecedence "primary" None now c
  else setPrecedence "secondary" (Some primaryID) now c.

(** The effect of a whole pass on a row: it is rewritten when one of the
    contacts of the slice carries its id and is not in its target state. *)
Definition touch (primaryID : Z) (now : Time) (contacts : list Contact)
    (r : Contact) : Contact :=
  if decide (Exists (λ c, ID c = ID r ∧ ¬ inTarget primaryID c) contacts)
  then normalized primaryID now r else r.

(** The statements of a pass. *)
Definition updatesOf (primaryID : Z) (contacts : list Contact) : list Stmt :=
  (λ c, if decide (ID c = primaryID)
        then UpdatePrecedence (ID c) "primary" None
        else UpdatePrecedence (ID c) "secondary" (Some primaryID))
  <$> filter (λ c, ¬ inTarget primaryID c) contacts.

Lemma normalized_ID pid now c : ID (normalized pid now c) = ID c.
Proof. unfold normalized. by destruct (decide _). Qed.

Lemma normalized_inTarget pid now c : inTarget pid (normalized pid now c).
Proof.
  unfold inTarget. rewrite normalized_ID. unfold normalized.
  by destruct (decide (ID c = pid)).
Qed.

Lemma normalized_idem pid now c :
  normalized pid now (normalized pid now c) = normalized pid now c.
Proof.
  unfold normalized at 1. rewrite normalized_ID. unfold normalized.
  by destruct (decide (ID c = pid)).
Qed.

Lemma touch_ID pid now contacts r : ID (touch pid now contacts r) = ID r.
Proof. unfold touch. destruct (decide _); [apply normalized_ID|done]. Qed.

Lemma touch_nil pid now r : touch pid now [] r = r.
Proof.
  unfold touch. destruct (decide _) as [H|]; [|done]. by apply Exists_nil in H.
Qed.

Lemma touch_single pid now c r :
  ¬ inTarget pid c →
  touch pid now [c] r = if decide (ID r = ID c) then normalized pid now r else r.
Proof.
  intros Hc. unfold touch.
  destruct (decide (Exists _ [c])) as [H|H], (decide (ID r = ID c)) as [Heq|Hne];
    try done.
  - apply Exists_cons in H as [[? _]|H]; [congruence|by apply Exists_nil in H].
  - destruct H. by left.
Qed.

Lemma reconcile_step pid now c rest db :
  reconcilePrimaryStatus (c :: rest) pid now db =
  reconcilePrimaryStatus rest pid now
    (if decide (inTarget pid c) then db
     else mkDB (touch pid now [c] <$> table db) (seq db)
               (trace db ++ updatesOf pid [c])).
Proof.
  simpl. rewrite bind_eq. f_equal.
  destruct (decide (inTarget pid c)) as [Hin|Hout].
  - unfold inTarget in Hin.
    destruct (decide (ID c = pid)).
    + destruct (decide (LinkPrecedence c ≠ "primary")); [done|by destruct db].
    + destruct (decide (_ ∨ _)) as [[?|?]|?]; [by destruct Hin..|by destruct db].
  - assert (updatesOf pid [c] =
            [if decide (ID c = pid) then UpdatePrecedence (ID c) "primary" None
             else UpdatePrecedence (ID c) "secondary" (Some pid)]) as ->.
    { unfold updatesOf. rewrite filter_cons_True by done. done. }
    assert (touch pid now [c] <$> table db =
            (λ r, if decide (ID r = ID c) then normalized pid now r else r)
              <$> table db) as ->.
    { apply list_fmap_ext. intros _ r _. by apply touch_single. }
    pose proof Hout as Hout'. unfold inTarget in Hout'.
    destruct (decide (ID c = pid)) as [Hp|Hp].
    + destruct (decide (LinkPrecedence c ≠ "primary")); [|done].
      simpl. f_equal. apply list_fmap_ext. intros _ r _.
      destruct (decide (ID r = ID c)) as [Hr|]; [|done].
      unfold normalized. rewrite decide_True by congruence. done.
    + destruct (decide (_ ∨ _)) as [?|Hn].
      * simpl. f_equal. apply list_fmap_ext. intros _ r _.
        destruct (decide (ID r = ID c)) as [Hr|]; [|done].
        unfold normalized. rewrite decide_False by congruence. done.
      * destruct Hout'. split.
        -- destruct (decide (LinkPrecedence c = "secondary")); [done|].
           destruct Hn. by left.
        -- destruct (decide (LinkedID c = Some pid)); [done|].
           destruct Hn. by right.
Qed.

Lemma touch_cons pid now c rest r :
  touch pid now rest (if decide (inTarget pid c) then r else touch pid now [c] r)
  = touch pid now (c :: rest) r.
Proof.
  destruct (decide (inTarget pid c)) as [Hin|Hout].
  - unfold touch.
    destruct (decide (Exists _ rest)) as [H|H],
             (decide (Exists _ (c :: rest))) as [H'|H']; try done.
    + destruct H'. by right.
    + apply Exists_cons in H' as [[_ ?]|?]; done.
  - rewrite touch_single by done.
    destruct (decide (ID r = ID c)) as [Heq|Hne].
    + transitivity (normalized pid now r).
      * unfold touch at 1. rewrite normalized_ID.
        destruct (decide _); [apply normalized_idem|done].
      * unfold touch. rewrite decide_True; [done|]. by left.
    + unfold touch.
      destruct (decide (Exists _ rest)) as [H|H],
               (decide (Exists _ (c :: rest))) as [H'|H']; try done.
      * destruct H'. by right.
      * apply Exists_cons in H' as [[? _]|?]; [congruence|done].
Qed.

Lemma touch_settled pid now contacts r :
  Forall (inTarget pid) contacts → touch pid now contacts r = r.
Proof.
  intros Hall. unfold touch. rewrite decide_False; [done|].
  intros HE. apply Exists_exists in HE as (x & Hx & _ & Hnx).
  by eapply Forall_forall in Hall.
Qed.

Lemma reconcile_spec pid now contacts db :
  reconcilePrimaryStatus contacts pid now db =
  (tt, if decide (Forall (inTarget pid) contacts) then db
       else mkDB (touch pid now contacts <$> table db) (seq db)
                 (trace db ++ updatesOf pid contacts)).
Proof.
  revert db. induction contacts as [|c rest IH]; intros db.
  { rewrite decide_True by constructor. done. }
  rewrite reconcile_step, IH.
  f_equal.
  destruct (decide (inTarget pid c)) as [Hin|Hout].
  - destruct (decide (Forall _ rest)) as [Hall|Hnot].
    + rewrite decide_True by (by constructor). done.
    + rewrite decide_False by (by intros [??]%Forall_cons).
      f_equal.
      * apply list_fmap_ext. intros _ r _.
        rewrite <- (touch_cons pid now c rest r). by rewrite decide_True.
      * unfold updatesOf. by rewrite filter_cons_False by tauto.
  - rewrite (decide_False (P := Forall _ (c :: rest))) by (by intros [??]%Forall_cons).
    destruct (decide (Forall _ rest)) as [Hall|Hnot]; simpl.
    + f_equal.
      * apply list_fmap_ext. intros _ r _.
        rewrite <- (touch_cons pid now c rest r). rewrite decide_False by done.
        by rewrite (touch_settled pid now rest).
      * f_equal. unfold updatesOf. rewrite !filter_cons_True by done.
        rewrite (filter_none _ rest); [done|].
        eapply Forall_impl; [exact Hall|]. tauto.
    + f_equal.
      * rewrite <- list_fmap_compose. apply list_fmap_ext. intros _ r _. simpl.
        rewrite <- (touch_cons pid now c rest r). by rewrite decide_False.
      * rewrite <- app_assoc. f_equal. unfold updatesOf.
        rewrite !filter_cons_True by done. by rewrite filter_nil, !fmap_cons.
Qed.

(** ** Sets built by the loops *)

Lemma existing_fold (field : Contact → option string) contacts (s : gset string) v :
  v ∈ foldl (λ s c, match field c with Some x => {[x]} ∪ s | None => s end)
            s contacts
  ↔ v ∈ s ∨ ∃ c, c ∈ contacts ∧ field c = Some v.
Proof.
  revert s. induction contacts as [|c cs IH]; intros s; simpl.
  { split; [by left|]. intros [?|(c & Hc & _)]; [done|]. by apply elem_of_nil in Hc. }
  rewrite IH. split.
  - intros [Hv|(d & Hd & Hf)].
    + destruct (field c) as [x|] eqn:Hx; [|by left].
      apply elem_of_union in Hv as [Hv|Hv]; [|by left].
      apply elem_of_singleton in Hv as ->. right. exists c. split; [left|done].
    + right. exists d. split; [by right|done].
  - intros [Hv|(d & Hd & Hf)].
    + left. destruct (field c); [|done]. apply elem_of_union. by right.
    + apply elem_of_cons in Hd as [->|Hd].
      * left. rewrite Hf. apply elem_of_union. left. by apply elem_of_singleton.
      * right. by exists d.
Qed.

Lemma existingEmails_spec contacts v :
  v ∈ existingEmails contacts ↔ ∃ c, c ∈ contacts ∧ Email c = Some v.
Proof.
  unfold existingEmails. rewrite (existing_fold Email).
  split; [intros [H|H]; [by apply not_elem_of_empty in H|done]|by right].
Qed.

Lemma existingPhones_spec contacts v :
  v ∈ existingPhones contacts ↔ ∃ c, c ∈ contacts ∧ PhoneNumber c = Some v.
Proof.
  unfold existingPhones. rewrite (existing_fold PhoneNumber).
  split; [intros [H|H]; [by apply not_elem_of_empty in H|done]|by right].
Qed.

Lemma collect_fold (field : Contact → option string) primaryValue contacts
    (s : gset string) v :
  v ∈ foldl (λ s c, match field c with
                    | Some x => if decide (x ≠ EmptyString ∧ x ≠ primaryValue)
                                then {[x]} ∪ s else s
                    | None => s
                    end) s contacts
  ↔ v ∈ s ∨ (v ≠ EmptyString ∧ v ≠ primaryValue ∧ ∃ c, c ∈ contacts ∧ field c = Some v).
Proof.
  revert s. induction contacts as [|c cs IH]; intros s; simpl.
  { split; [by left|]. intros [?|(_ & _ & c & Hc & _)]; [done|].
    by apply elem_of_nil in Hc. }
  rewrite IH. split.
  - intros [Hv|(H1 & H2 & d & Hd & Hf)].
    + destruct (field c) as [x|] eqn:Hx; [|by left].
      destruct (decide _) as [[??]|]; [|by left].
      apply elem_of_union in Hv as [Hv|Hv]; [|by left].
      apply elem_of_singleton in Hv as ->. right.
      split_and!; [done..|]. exists c. split; [left|done].
    + right. split_and!; [done..|]. exists d. split; [by right|done].
  - intros [Hv|(H1 & H2 & d & Hd & Hf)].
    + left. destruct (field c); [|done]. destruct (decide _); [|done].
      apply elem_of_union. by right.
    + apply elem_of_cons in Hd as [->|Hd].
      * left. rewrite Hf. rewrite decide_True by done.
        apply elem_of_union. left. by apply elem_of_singleton.
      * right. split_and!; [done..|]. by exists d.
Qed.

Lemma collect_spec field primaryValue contacts v :
  v ∈ collect field primaryValue contacts
  ↔ v ≠ EmptyString ∧ v ≠ primaryValue ∧ ∃ c, c ∈ contacts ∧ field c = Some v.
Proof.
  unfold collect. rewrite collect_fold.
  split; [intros [H|H]; [by apply not_elem_of_empty in H|done]|by right].
Qed.

(** ** The first loop of [buildResponse] *)

Lemma ids_unique_eq (t : list Contact) c d :
  NoDup (ID <$> t) → c ∈ t → d ∈ t → ID c = ID d → c = d.
Proof.
  induction t as [|x t IH]; intros Hnd Hc Hd Heq; [by apply elem_of_nil in Hc|].
  rewrite fmap_cons in Hnd. apply NoDup_cons in Hnd as [Hx Hnd].
  apply elem_of_cons in Hc as [->|Hc], Hd as [->|Hd]; try done.
  - destruct Hx. rewrite Heq. by apply list_elem_of_fmap_2.
  - destruct Hx. rewrite <- Heq. by apply list_elem_of_fmap_2.
  - by apply IH.
Qed.

Lemma scan_secondaries pid contacts st :
  secondaryContactIDs (foldl (scanStep pid) st contacts) =
  secondaryContactIDs st ++ (ID <$> filter (λ c, ID c ≠ pid) contacts).
Proof.
  revert st. induction contacts as [|c cs IH]; intros st; simpl.
  { by rewrite app_nil_r. }
  rewrite IH. unfold scanStep.
  destruct (decide (ID c = pid)) as [Heq|Hne]; simpl.
  - by rewrite filter_cons_False by tauto.
  - rewrite filter_cons_True by done. by rewrite <- app_assoc.
Qed.

Lemma scan_primary pid p contacts st :
  ID p = pid → (∀ c, c ∈ contacts → ID c = pid → c = p) →
  if decide (p ∈ contacts)
  then primaryEmail (foldl (scanStep pid) st contacts)
         = default (primaryEmail st) (Email p) ∧
       primaryPhone (foldl (scanStep pid) st contacts)
         = default (primaryPhone st) (PhoneNumber p)
  else primaryEmail (foldl (scanStep pid) st contacts) = primaryEmail st ∧
       primaryPhone (foldl (scanStep pid) st contacts) = primaryPhone st.
Proof.
  intros Hp. revert st. induction contacts as [|c cs IH]; intros st Huniq.
  { rewrite decide_False; [done|]. apply not_elem_of_nil. }
  cbn [foldl].
  specialize (IH (scanStep pid st c)).
  assert (∀ d, d ∈ cs → ID d = pid → d = p) as Hcs.
  { intros d Hd. apply Huniq. by right. }
  specialize (IH Hcs).
  assert (primaryEmail (scanStep pid st c) =
            (if decide (ID c = pid) then default (primaryEmail st) (Email c)
             else primaryEmail st) ∧
          primaryPhone (scanStep pid st c) =
            (if decide (ID c = pid) then default (primaryPhone st) (PhoneNumber c)
             else primaryPhone st)) as [He Hph].
  { unfold scanStep.
    destruct (decide (ID c = pid)); simpl; [|done].
    by destruct (Email c), (PhoneNumber c). }
  rewrite He, Hph in IH. clear He Hph.
  destruct (decide (ID c = pid)) as [Heq|Hne].
  - assert (c = p) as -> by (apply Huniq; [left|done]).
    rewrite decide_True by left.
    destruct (decide (p ∈ cs)); destruct IH as [-> ->];
      by destruct (Email p), (PhoneNumber p).
  - destruct (decide (p ∈ cs)) as [Hin|Hout].
    + rewrite decide_True by (by right). done.
    + rewrite decide_False; [done|].
      intros [->|?]%elem_of_cons; [by destruct Hne|done].
Qed.

(** ** The projected response *)

(** Rows a group query returns for [primaryID]. *)
Definition groupOf (t : list Contact) (primaryID : Z) : list Contact :=
  filter (λ c, (ID c = primaryID ∨ LinkedID c = Some primaryID) ∧ live c) t.

(** The response [buildResponse] computes from the rows it fetched. *)
Definition project (o : MapOrder) (primaryID : Z) (allContacts : list Contact)
    : ContactResponse :=
  let st := scanContacts primaryID allContacts in
  mkResponse primaryID
    ((if decide (primaryEmail st ≠ EmptyString) then [primaryEmail st] else []) ++
     o _ (elements (collect Email (primaryEmail st) allContacts)))
    ((if decide (primaryPhone st ≠ EmptyString) then [primaryPhone st] else []) ++
     o _ (elements (collect PhoneNumber (primaryPhone st) allContacts)))
    (secondaryContactIDs st).

Lemma buildResponse_eq o pid db :
  buildResponse o pid db =
  (mkIdentifyResponse (project o pid (groupOf (table db) pid)),
   mkDB (table db) (seq db) (trace db ++ [SelectGroup pid])).
Proof. done. Qed.

(** The values a record contributes first: its own, unless nil or empty. *)
Definition own (v : option string) : list string :=
  match supplied v with Some x => [x] | None => [] end.

(** [rest] lists, once each, the non-empty values of [field] on the
    records of [group] other than the value [mine]. *)
Definition distinctOthers (field : Contact → option string) (mine : option string)
    (group : list Contact) (rest : list string) : Prop :=
  NoDup rest ∧
  ∀ v, v ∈ rest ↔ v ≠ EmptyString ∧ mine ≠ Some v ∧ ∃ c, c ∈ group ∧ field c = Some v.

Lemma project_field o (field : Contact → option string) (mine : option string)
    group :
  fair o →
  let pv := default EmptyString mine in
  ∃ rest,
    (if decide (pv ≠ EmptyString) then [pv] else []) ++
      o _ (elements (collect field pv group)) = own mine ++ rest ∧
    distinctOthers field mine group rest ∧
    NoDup (own mine ++ rest).
Proof.
  intros Hfair pv. exists (o _ (elements (collect field pv group))).
  assert (∀ v, v ∈ o _ (elements (collect field pv group)) ↔
               v ≠ EmptyString ∧ mine ≠ Some v ∧ ∃ c, c ∈ group ∧ field c = Some v) as Hrest.
  { intros v. rewrite (Hfair _ _), elem_of_elements, collect_spec.
    subst pv. destruct mine as [m|]; simpl.
    - split; intros (H1 & H2 & H3); split_and!; try done; congruence.
    - split; intros (H1 & H2 & H3); split_and!; done. }
  assert (NoDup (o _ (elements (collect field pv group)))) as Hnd.
  { rewrite (Hfair _ _). apply NoDup_elements. }
  split_and!.
  - f_equal. unfold own, supplied. subst pv. destruct mine as [m|]; simpl.
    + destruct (decide (m = EmptyString)), (decide (m ≠ EmptyString)); done.
    + done.
  - by split.
  - unfold own, supplied. destruct mine as [m|]; [|done].
    destruct (decide (m = EmptyString)); [done|].
    simpl. apply NoDup_cons. split; [|done].
    rewrite Hrest. by intros (_ & ? & _).
Qed.

Lemma project_spec o pid p group :
  fair o → NoDup (ID <$> group) → p ∈ group → ID p = pid →
  let r := project o pid group in
  PrimaryContactID r = pid ∧
  (∃ rest, Emails r = own (Email p) ++ rest ∧
           distinctOthers Email (Email p) group rest ∧ NoDup (Emails r)) ∧
  (∃ rest, PhoneNumbers r = own (PhoneNumber p) ++ rest ∧
           distinctOthers PhoneNumber (PhoneNumber p) group rest ∧
           NoDup (PhoneNumbers r)) ∧
  SecondaryContactIDs r = ID <$> filter (λ c, ID c ≠ pid) group.
Proof.
  intros Hfair Hnd Hp Hid. simpl.
  pose proof (scan_primary pid p group (mkScan EmptyString EmptyString []) Hid) as Hscan.
  rewrite decide_True in Hscan by done.
  destruct Hscan as [He Hph].
  { intros c Hc Hcid. apply (ids_unique_eq group); [done..|congruence]. }
  simpl in He, Hph. unfold scanContacts. rewrite He, Hph.
  split_and!.
  - done.
  - destruct (project_field o Email (Email p) group Hfair) as (rest & H1 & H2 & H3).
    exists rest. rewrite H1. by split_and!.
  - destruct (project_field o PhoneNumber (PhoneNumber p) group Hfair)
      as (rest & H1 & H2 & H3).
    exists rest. rewrite H1. by split_and!.
  - by rewrite scan_secondaries.
Qed.

(** ** The two branches of [Identify] *)

Definition primaryRow (req : IdentifyRequest) (now : Time) (id : Z) : Contact :=
  mkContact id (reqPhoneNumber req) (reqEmail req) None "primary" now now None.

Definition secondaryRow (req : IdentifyRequest) (now : Time) (id linkedID : Z)
    : Contact :=
  mkContact id (reqPhoneNumber req) (reqEmail req) (Some linkedID) "secondary"
            now now None.

Definition afterInsert (db : DB) (row : Contact) : DB :=
  mkDB (table db ++ [row]) (ID row) (trace db ++ [InsertContact row]).

Definition afterResponse (db : DB) (primaryID : Z) : DB :=
  mkDB (table db) (seq db) (trace db ++ [SelectGroup primaryID]).

Lemma Identify_fresh o req now db db0 :
  findLinkedContacts o (reqEmail req) (reqPhoneNumber req) db = ([], db0) →
  let row := primaryRow req now (seq db0 + 1) in
  Identify o req now db =
  (Some (mkIdentifyResponse
           (project o (ID row) (groupOf (table db0 ++ [row]) (ID row)))),
   afterResponse (afterInsert db0 row) (ID row)).
Proof.
  intros Hfind. unfold Identify. rewrite bind_eq, Hfind. done.
Qed.

Lemma Identify_found o req now db db0 T p rest :
  findLinkedContacts o (reqEmail req) (reqPhoneNumber req) db = (T, db0) →
  T ≠ [] → sortSlice T = p :: rest →
  let db1 :=
    if hasNewInformation (sortSlice T) (reqEmail req) (reqPhoneNumber req)
    then afterInsert db0 (secondaryRow req now (seq db0 + 1) (ID p)) else db0 in
  let db2 := (reconcilePrimaryStatus (sortSlice T) (ID p) now db1).2 in
  Identify o req now db =
  (Some (mkIdentifyResponse (project o (ID p) (groupOf (table db2) (ID p)))),
   afterResponse db2 (ID p)).
Proof.
  intros Hfind Hne Hsort. unfold Identify. rewrite bind_eq, Hfind.
  destruct T as [|c T']; [done|]. cbn [fst snd].
  unfold findOldestContact. rewrite Hsort. cbn [head].
  rewrite bind_eq.
  destruct (hasNewInformation _ _ _); rewrite !bind_eq; done.
Qed.

(** ** Consistency is preserved *)

Lemma consistent_insert db row tr :
  consistent db → ID row = seq db + 1 →
  (∀ l, LinkedID row = Some l → l ≤ seq db) →
  consistent (mkDB (table db ++ [row]) (ID row) tr).
Proof.
  intros [Hnd Hid Hlk] Hrow Hl. split; simpl.
  - rewrite fmap_app. apply NoDup_app. split_and!; [done| |apply NoDup_singleton].
    intros x Hx Hx'. apply list_elem_of_fmap in Hx as (c & -> & Hc).
    apply list_elem_of_singleton in Hx'. apply Hid in Hc. lia.
  - intros c [Hc|Hc%list_elem_of_singleton]%elem_of_app.
    + apply Hid in Hc. lia.
    + subst c. lia.
  - intros c l [Hc|Hc%list_elem_of_singleton]%elem_of_app Hcl.
    + pose proof (Hlk c l Hc Hcl). lia.
    + subst c. apply Hl in Hcl. lia.
Qed.

Lemma consistent_touch db pid now contacts tr :
  consistent db → pid ≤ seq db →
  consistent (mkDB (touch pid now contacts <$> table db) (seq db) tr).
Proof.
  intros [Hnd Hid Hlk] Hpid. split; simpl.
  - rewrite <- list_fmap_compose.
    rewrite (list_fmap_ext _ ID (table db)); [done|].
    intros _ c _. apply touch_ID.
  - intros c' (c & -> & Hc)%list_elem_of_fmap. rewrite touch_ID. by apply Hid.
  - intros c' l (c & -> & Hc)%list_elem_of_fmap. unfold touch, normalized.
    destruct (decide _); [|by apply Hlk].
    destruct (decide (ID c = pid)); simpl; [done|]. intros [= <-]. done.
Qed.

Lemma consistent_reads db db' :
  consistent db → table db' = table db → seq db' = seq db → consistent db'.
Proof. intros [Hnd Hid Hlk] Ht Hs. split; rewrite ?Ht, ?Hs; done. Qed.

Lemma touch_live pid now contacts r : live (touch pid now contacts r) ↔ live r.
Proof.
  unfold touch, normalized, live.
  destruct (decide _); [|done]. by destruct (decide (ID r = pid)).
Qed.

Lemma reconcile_table pid now contacts db :
  let db' := (reconcilePrimaryStatus contacts pid now db).2 in
  table db' = touch pid now contacts <$> table db ∧ seq db' = seq db.
Proof.
  rewrite reconcile_spec. simpl.
  destruct (decide (Forall _ contacts)) as [Hall|]; [|done].
  split; [|done].
  rewrite (list_fmap_ext _ id (table db)); [by rewrite list_fmap_id|].
  intros _ r _. by apply touch_settled.
Qed.

(** The table [Identify] leaves behind, as a function of what discovery
    found. *)
Definition tableAfter (req : IdentifyRequest) (now : Time) (db : DB)
    (T : list Contact) : list Contact :=
  match sortSlice T with
  | [] => table db ++ [primaryRow req now (seq db + 1)]
  | p :: _ =>
      touch (ID p) now (sortSlice T) <$>
        (if hasNewInformation (sortSlice T) (reqEmail req) (reqPhoneNumber req)
         then table db ++ [secondaryRow req now (seq db + 1) (ID p)]
         else table db)
  end.

Definition primaryAfter (db : DB) (T : list Contact) : Z :=
  match sortSlice T with
  | [] => seq db + 1
  | p :: _ => ID p
  end.

Lemma Identify_outcome o req now db :
  fair o → consistent db →
  let T := (findLinkedContacts o (reqEmail req) (reqPhoneNumber req) db).1 in
  let pid := primaryAfter db T in
  ∃ db2,
    Identify o req now db =
      (Some (mkIdentifyResponse (project o pid (groupOf (table db2) pid))),
       afterResponse db2 pid) ∧
    table db2 = tableAfter req now db T ∧
    consistent db2 ∧
    ∃ p, p ∈ table db2 ∧ ID p = pid ∧ live p.
Proof.
  intros Hfair Hdb T pid.
  destruct (findLinkedContacts_spec o (reqEmail req) (reqPhoneNumber req) db Hfair)
    as (Hstored & Ht0 & Hs0 & _).
  destruct (findLinkedContacts o (reqEmail req) (reqPhoneNumber req) db)
    as [T' db0] eqn:Hfind.
  simpl in Hstored, Ht0, Hs0, T. subst T pid. unfold primaryAfter, tableAfter.
  assert (consistent db0) as Hdb0 by (by eapply consistent_reads).
  destruct (decide (T' = [])) as [->|Hne].
  - rewrite (Identify_fresh o req now db db0 Hfind).
    exists (afterInsert db0 (primaryRow req now (seq db0 + 1))).
    change (sortSlice []) with (@nil Contact). cbv iota.
    unfold afterInsert. cbn [table seq ID primaryRow]. rewrite Hs0, Ht0.
    split; [done|]. split; [done|]. split.
    + rewrite <- Ht0. apply (consistent_insert db0); simpl; [done|lia|done].
    + eexists. split; [apply elem_of_app; right; by apply list_elem_of_singleton|].
      done.
  - destruct (findOldestContact_nonempty T' Hne) as (p & rest & Hsort & _ & HpT & _).
    rewrite (Identify_found o req now db db0 T' p rest Hfind Hne Hsort).
    rewrite Hsort. rewrite <- Hsort.
    assert (stored (table db) p) as [Hp Hlive].
    { by eapply Forall_forall in Hstored. }
    assert (ID p ≤ seq db) as Hpid by (by apply (ids_bounded db)).
    set (db1 := if hasNewInformation _ _ _ then _ else db0).
    assert (consistent db1 ∧ seq db ≤ seq db1 ∧ p ∈ table db1 ∧
            table db1 =
              if hasNewInformation (sortSlice T') (reqEmail req) (reqPhoneNumber req)
              then table db ++ [secondaryRow req now (seq db + 1) (ID p)]
              else table db) as (Hdb1 & Hseq1 & Hp1 & Ht1).
    { subst db1. destruct (hasNewInformation _ _ _).
      - unfold afterInsert. simpl. rewrite Hs0, Ht0. split_and!.
        + rewrite <- Ht0. apply (consistent_insert db0); simpl; [done|lia|].
          intros l [= <-]. lia.
        + lia.
        + apply elem_of_app. by left.
        + done.
      - rewrite Hs0, Ht0. split_and!; [done|lia|done|done]. }
    destruct (reconcile_table (ID p) now (sortSlice T') db1) as [Ht2 Hs2].
    eexists. split; [reflexivity|]. split; [by rewrite Ht2, Ht1|]. split.
    + eapply (consistent_reads (mkDB (touch (ID p) now (sortSlice T') <$> table db1)
                                     (seq db1) [])); [|done..].
      apply consistent_touch; [done|lia].
    + exists (touch (ID p) now (sortSlice T') p). split_and!.
      * rewrite Ht2. by apply list_elem_of_fmap_2.
      * apply touch_ID.
      * by apply touch_live.
Qed.

(** * The claims *)

(** ** C4: which record becomes the primary *)

(** The selection rule of the specification: the earliest [createdAt], and
    the smallest [id] among the records that share it. *)
Definition earliestSmallestID (contacts : list Contact) (p : Contact) : Prop :=
  p ∈ contacts ∧
  ∀ c, c ∈ contacts →
       CreatedAt p ≤ CreatedAt c ∧ (CreatedAt c = CreatedAt p → ID p ≤ ID c).

Definition tieA : Contact :=
  mkContact 1 (Some "1") (Some "a") None "primary" 5 5 None.
Definition tieB : Contact :=
  mkContact 2 (Some "2") (Some "b") None "primary" 5 5 None.

Definition tieCalls : list Call :=
  [ mkCall inOrder (Some "a") (Some "1") 5;
    mkCall inOrder (Some "b") (Some "2") 5 ].

(** C4, as stated, fails: two primaries created at the same instant, then a
    request matching both. When [range] yields record 2 before record 1 the
    sort keeps that order, record 2 is selected and record 1 is demoted,
    although record 1 has the smaller id ([inOrder] is such an order for
    this map). *)
Lemma findOldestContact_tie_counterexample :
  (findOldestContact [tieB; tieA]).2 = Some tieB ∧
  ¬ earliestSmallestID [tieB; tieA] tieB ∧
  ∃ db, runCalls tieCalls emptyDB = Some db ∧
        table db = [tieA; tieB] ∧
        (findLinkedContacts inOrder (Some "a") (Some "2") db).1 = [tieB; tieA] ∧
        PrimaryContactID <$> (Contact_ <$>
          (Identify inOrder (mkRequest (Some "a") (Some "2")) 6 db).1) = Some 2.
Proof.
  split; [done|]. split.
  - intros [_ H]. destruct (H tieA) as [_ Hid].
    + right. left.
    + specialize (Hid eq_refl). simpl in Hid. lia.
  - eexists. split; [vm_compute; reflexivity|]. by vm_compute.
Qed.

(** C4, amended: of a non-empty touched set, [findOldestContact] selects a
    member whose [createdAt] no other member precedes; nothing is said of
    ids. *)
Theorem findOldestContact_earliest (contacts : list Contact) :
  contacts ≠ [] →
  ∃ p, (findOldestContact contacts).2 = Some p ∧
       p ∈ contacts ∧
       ∀ c, c ∈ contacts → CreatedAt p ≤ CreatedAt c.
Proof.
  intros Hne.
  destruct (findOldestContact_nonempty contacts Hne) as (p & rest & _ & Hf & Hp & Hmin).
  exists p. by rewrite Hf.
Qed.

Lemma findOldestContact_earliest_witness :
  [tieB; tieA] ≠ [] ∧
  ∃ p, (findOldestContact [tieB; tieA]).2 = Some p ∧
       p ∈ [tieB; tieA] ∧
       ∀ c, c ∈ [tieB; tieA] → CreatedAt p ≤ CreatedAt c.
Proof.
  split; [done|]. apply (findOldestContact_earliest [tieB; tieA]). done.
Defined.

(** ** C7: normalization is idempotent on writes *)

(** The rows now stored under the ids of the touched set. *)
Definition refetch (db : DB) (contacts : list Contact) : list Contact :=
  filter (λ r, ID r ∈ (ID <$> contacts)) (table db).

Lemma reconcile_reaches_target pid now contacts db r :
  NoDup (ID <$> table db) → contacts ⊆ table db →
  r ∈ refetch (reconcilePrimaryStatus contacts pid now db).2 contacts →
  inTarget pid r.
Proof.
  intros Hnd Hsub Hr. unfold refetch in Hr.
  destruct (reconcile_table pid now contacts db) as [Ht _]. rewrite Ht in Hr.
  apply list_elem_of_filter in Hr as [Hid (r0 & -> & Hr0)%list_elem_of_fmap].
  rewrite touch_ID in Hid.
  apply list_elem_of_fmap in Hid as (c & Hidc & Hc).
  unfold touch. destruct (decide (Exists _ contacts)) as [HE|HE].
  { apply normalized_inTarget. }
  assert (c = r0) as ->.
  { apply (ids_unique_eq (table db)); [done|by apply Hsub|done|done]. }
  destruct (decide (inTarget pid r0)) as [|Hout]; [done|].
  destruct HE. apply Exists_exists. by exists r0.
Qed.

(** C7: run the normalization over a touched set read from the store, read
    the same records again, run it again: the second run leaves the store
    as it is, trace included, so it executes no statement. *)
Theorem reconcilePrimaryStatus_second_pass_silent
    (contacts : list Contact) (primaryID : Z) (now now' : Time) (db : DB) :
  NoDup (ID <$> table db) → contacts ⊆ table db →
  let db1 := (reconcilePrimaryStatus contacts primaryID now db).2 in
  reconcilePrimaryStatus (refetch db1 contacts) primaryID now' db1 = (tt, db1) ∧
  Forall (inTarget primaryID) (refetch db1 contacts).
Proof.
  intros Hnd Hsub db1.
  assert (Forall (inTarget primaryID) (refetch db1 contacts)) as Hall.
  { apply Forall_forall. intros r Hr.
    by apply (reconcile_reaches_target primaryID now contacts db). }
  split; [|done]. rewrite reconcile_spec. by rewrite decide_True.
Qed.

Definition mergeDB : DB := mkDB [tieA; tieB] 2 [].

Lemma reconcilePrimaryStatus_second_pass_silent_witness :
  let db1 := (reconcilePrimaryStatus [tieB; tieA] 1 7 mergeDB).2 in
  trace db1 = [UpdatePrecedence 2 "secondary" (Some 1)] ∧
  reconcilePrimaryStatus (refetch db1 [tieB; tieA]) 1 8 db1 = (tt, db1).
Proof.
  split; [done|].
  apply (reconcilePrimaryStatus_second_pass_silent [tieB; tieA] 1 7 8 mergeDB).
  - compute_done.
  - compute_done.
Defined.

(** ** C8: a request with neither email nor phone number *)

Definition blank (s : option string) : Prop := s = None ∨ s = Some EmptyString.

(** C8: when both fields are nil or empty the handler answers with a 4xx
    error (400 for a POST; the only other answer is 405, for another
    method) and hands the store back untouched: no statement is added to
    the trace. *)
Theorem Handle_rejects_blank_request
    (o : MapOrder) (method : string) (req : IdentifyRequest) (now : Time)
    (db : DB) :
  blank (reqEmail req) → blank (reqPhoneNumber req) →
  ∃ message code,
    Handle o method (Some req) now db = (HttpError message code, db) ∧
    400 ≤ code < 500 ∧
    (method = "POST" → code = StatusBadRequest).
Proof.
  intros He Hp. unfold Handle.
  destruct (decide (method ≠ "POST")) as [Hm|Hm].
  - eexists _, _. split; [done|]. split; [done|]. intros ->. by destruct Hm.
  - rewrite decide_True by done. eexists _, _. by split_and!.
Qed.

Lemma Handle_rejects_blank_request_witness :
  ∃ message code,
    Handle inOrder "POST" (Some (mkRequest (Some EmptyString) None)) 9 mergeDB
      = (HttpError message code, mergeDB) ∧
    400 ≤ code < 500 ∧
    ("POST" = "POST" → code = StatusBadRequest).
Proof.
  apply (Handle_rejects_blank_request inOrder "POST" (mkRequest (Some EmptyString) None) 9 mergeDB).
  - right. reflexivity.
  - left. reflexivity.
Defined.

(** ** C10: the empty string counts as absent *)

Lemma supplied_blank s : blank s → supplied s = None.
Proof. by intros [->| ->]. Qed.

Lemma project_no_empty o pid group :
  fair o →
  (EmptyString ∉ Emails (project o pid group)) ∧
  (EmptyString ∉ PhoneNumbers (project o pid group)).
Proof.
  intros Hfair. simpl. split; intros [H|H]%elem_of_app.
  - destruct (decide (primaryEmail _ ≠ EmptyString)) as [Hne|]; [|by apply elem_of_nil in H].
    apply list_elem_of_singleton in H. by destruct Hne.
  - rewrite (Hfair _ _), elem_of_elements, collect_spec in H. by destruct H.
  - destruct (decide (primaryPhone _ ≠ EmptyString)) as [Hne|]; [|by apply elem_of_nil in H].
    apply list_elem_of_singleton in H. by destruct Hne.
  - rewrite (Hfair _ _), elem_of_elements, collect_spec in H. by destruct H.
Qed.

(** C10: an empty email (or phone number) behaves as a nil one. Discovery
    returns the same records and issues the same statements, none of them
    a query by that field; the decision to create a secondary is the same,
    and is negative when the other field is blank too; and no response
    lists the empty string. *)
Theorem empty_string_treated_as_absent (o : MapOrder) :
  fair o →
  (∀ other db,
     findLinkedContacts o (Some EmptyString) other db = findLinkedContacts o None other db ∧
     findLinkedContacts o other (Some EmptyString) db = findLinkedContacts o other None db) ∧
  (∀ other db stmt,
     stmt ∈ trace (findLinkedContacts o (Some EmptyString) other db).2 →
     stmt ∈ trace db ∨ ∀ e, stmt ≠ SelectByEmail e) ∧
  (∀ other db stmt,
     stmt ∈ trace (findLinkedContacts o other (Some EmptyString) db).2 →
     stmt ∈ trace db ∨ ∀ p, stmt ≠ SelectByPhoneNumber p) ∧
  (∀ contacts other,
     hasNewInformation contacts (Some EmptyString) other = hasNewInformation contacts None other ∧
     hasNewInformation contacts other (Some EmptyString) = hasNewInformation contacts other None) ∧
  (∀ contacts e p, blank e → blank p → hasNewInformation contacts e p = false) ∧
  (∀ primaryID db,
     let resp := Contact_ (buildResponse o primaryID db).1 in
     (EmptyString ∉ Emails resp) ∧ (EmptyString ∉ PhoneNumbers resp)).
Proof.
  intros Hfair. split_and!.
  - intros other db. split; [done|].
    unfold findLinkedContacts. by destruct (supplied other).
  - intros other db stmt Hin.
    destruct (findLinkedContacts_spec o (Some EmptyString) other db Hfair)
      as (_ & _ & _ & ids & Htr).
    rewrite Htr in Hin. unfold discoveryTrace in Hin. simpl in Hin.
    apply elem_of_app in Hin as [Hin|Hin]; [by left|]. right. intros e ->.
    apply elem_of_app in Hin as [Hin|Hin].
    + destruct (supplied other); [|by apply elem_of_nil in Hin].
      by apply list_elem_of_singleton in Hin.
    + by apply list_elem_of_fmap in Hin as (? & ? & _).
  - intros other db stmt Hin.
    destruct (findLinkedContacts_spec o other (Some EmptyString) db Hfair)
      as (_ & _ & _ & ids & Htr).
    rewrite Htr in Hin. unfold discoveryTrace in Hin. simpl in Hin.
    apply elem_of_app in Hin as [Hin|Hin]; [by left|]. right. intros p ->.
    apply elem_of_app in Hin as [Hin|Hin].
    + destruct (supplied other); [|by apply elem_of_nil in Hin].
      by apply list_elem_of_singleton in Hin.
    + by apply list_elem_of_fmap in Hin as (? & ? & _).
  - intros contacts other. split; [done|].
    unfold hasNewInformation. by destruct (supplied other).
  - intros contacts e p He Hp. unfold hasNewInformation.
    by rewrite (supplied_blank e He), (supplied_blank p Hp).
  - intros primaryID db. rewrite buildResponse_eq. by apply project_no_empty.
Qed.

Lemma inOrder_fair : fair inOrder.
Proof. intros A l. unfold inOrder. reflexivity. Defined.

Lemma empty_string_treated_as_absent_witness :
  hasNewInformation [tieA] (Some EmptyString) (Some "1") = false ∧
  trace (findLinkedContacts inOrder (Some EmptyString) (Some "1") mergeDB).2
    = [SelectByPhoneNumber "1"] ∧
  EmptyString ∉ Emails (Contact_ (buildResponse inOrder 1 mergeDB).1).
Proof.
  split; [reflexivity|]. split; [reflexivity|].
  apply (empty_string_treated_as_absent inOrder inOrder_fair).
Defined.

(** ** C5: when a secondary record is created *)

(** The supplied value is present and non-empty, and no record of the
    touched set carries it. *)
Definition absent (field : Contact → option string) (v : option string)
    (touched : list Contact) : Prop :=
  ∃ x, supplied v = Some x ∧ ∀ c, c ∈ touched → field c ≠ Some x.

Definition newInformation (touched : list Contact) (req : IdentifyRequest) : Prop :=
  absent Email (reqEmail req) touched ∨
  absent PhoneNumber (reqPhoneNumber req) touched.

Lemma absent_perm field v l l' : l ≡ₚ l' → absent field v l → absent field v l'.
Proof.
  intros Hperm (x & Hx & Hall). exists x. split; [done|].
  intros c Hc. apply Hall. by rewrite Hperm.
Qed.

Lemma hasNewInformation_spec contacts req :
  hasNewInformation contacts (reqEmail req) (reqPhoneNumber req) = true
  ↔ newInformation contacts req.
Proof.
  unfold hasNewInformation, newInformation, absent.
  assert (∀ (field : Contact → option string) (s : gset string) v,
            (∀ x, x ∈ s ↔ ∃ c, c ∈ contacts ∧ field c = Some x) →
            match supplied v with
            | Some x => negb (bool_decide (x ∈ s))
            | None => false
            end = true
            ↔ ∃ x, supplied v = Some x ∧ ∀ c, c ∈ contacts → field c ≠ Some x)
    as Hfield.
  { intros field s v Hs. destruct (supplied v) as [x|].
    - rewrite negb_true_iff, bool_decide_eq_false, Hs. split.
      + intros Hno. exists x. split; [done|]. intros c Hc Hf. apply Hno. eauto.
      + intros (y & [= <-] & Hall) (c & Hc & Hf). by apply (Hall c).
    - split; [done|]. by intros (x & ? & _). }
  pose proof (Hfield Email (existingEmails contacts) (reqEmail req)
                (existingEmails_spec contacts)) as He.
  pose proof (Hfield PhoneNumber (existingPhones contacts) (reqPhoneNumber req)
                (existingPhones_spec contacts)) as Hp.
  cbv zeta.
  destruct (match supplied (reqEmail req) with Some _ => _ | None => _ end);
  destruct (match supplied (reqPhoneNumber req) with Some _ => _ | None => _ end);
    intuition congruence.
Qed.

Lemma touch_foreign pid now contacts r :
  (∀ c, c ∈ contacts → ID c ≠ ID r) → touch pid now contacts r = r.
Proof.
  intros Hall. unfold touch. rewrite decide_False; [done|].
  intros (c & Hc & Heq & _)%Exists_exists. by apply (Hall c).
Qed.

Lemma touch_ids pid now contacts (t : list Contact) :
  ID <$> (touch pid now contacts <$> t) = ID <$> t.
Proof.
  rewrite <- list_fmap_compose. apply list_fmap_ext. intros _ c _. apply touch_ID.
Qed.

(** C5: with a non-empty touched set, [Identify] returns a response and
    - if the request brings new information, the table gains exactly one
      row, under the next id: the secondary carrying the supplied email and
      phone number and linked to the selected primary;
    - otherwise the table holds the same ids as before: nothing is
      created. *)
Theorem secondary_created_iff_new_information
    (o : MapOrder) (req : IdentifyRequest) (now : Time) (db : DB) :
  fair o → consistent db →
  let touched := (findLinkedContacts o (reqEmail req) (reqPhoneNumber req) db).1 in
  touched ≠ [] →
  ∃ p resp db',
    (findOldestContact touched).2 = Some p ∧
    Identify o req now db = (Some resp, db') ∧
    (newInformation touched req →
       ID <$> table db' = (ID <$> table db) ++ [seq db + 1] ∧
       mkContact (seq db + 1) (reqPhoneNumber req) (reqEmail req) (Some (ID p))
                 "secondary" now now None ∈ table db') ∧
    (¬ newInformation touched req → ID <$> table db' = ID <$> table db).
Proof.
  intros Hfair Hdb touched Hne.
  destruct (Identify_outcome o req now db Hfair Hdb) as (db2 & HId & Ht2 & _ & _).
  destruct (findLinkedContacts_spec o (reqEmail req) (reqPhoneNumber req) db Hfair)
    as (Hstored & _).
  fold touched in HId, Ht2, Hstored.
  destruct (findOldestContact_nonempty touched Hne) as (p & rest & Hsort & Hf & _ & _).
  unfold tableAfter in Ht2. rewrite Hsort in Ht2. rewrite <- Hsort in Ht2.
  exists p. eexists _, _. split; [by rewrite Hf|]. split; [exact HId|].
  cbn [table afterResponse]. rewrite Ht2, touch_ids.
  pose proof (hasNewInformation_spec (sortSlice touched) req) as Hspec.
  assert (newInformation (sortSlice touched) req ↔ newInformation touched req) as Hperm.
  { pose proof (sortSlice_perm touched) as Hp.
    unfold newInformation.
    split; (intros [H|H]; [left|right]); (eapply absent_perm; [|exact H]); done. }
  rewrite Hperm in Hspec. clear Hperm.
  destruct (hasNewInformation _ _ _).
  - split; [|intros Hno; destruct Hno; by apply Hspec].
    intros _. split; [by rewrite fmap_app|].
    apply list_elem_of_fmap.
    exists (secondaryRow req now (seq db + 1) (ID p)). split.
    + symmetry. apply touch_foreign. intros c Hc. simpl.
      rewrite (sortSlice_perm touched) in Hc.
      eapply Forall_forall in Hstored as [Hin _]; [|exact Hc].
      apply (ids_bounded db Hdb) in Hin. lia.
    + apply elem_of_app. right. by apply list_elem_of_singleton.
  - split; [|done]. intros Hnew. by apply Hspec in Hnew.
Qed.

Definition knownDB : DB :=
  mkDB [mkContact 1 (Some "111") (Some "u@x.com") None "primary" 1 1 None] 1 [].

Lemma knownDB_consistent : consistent knownDB.
Proof.
  split.
  - compute_done.
  - intros c Hc. apply list_elem_of_singleton in Hc. subst c. simpl. lia.
  - intros c l Hc Hl. apply list_elem_of_singleton in Hc. subst c. discriminate Hl.
Defined.

Lemma secondary_created_iff_new_information_witness :
  let req := mkRequest (Some "u@x.com") (Some "222") in
  let touched := (findLinkedContacts inOrder (reqEmail req) (reqPhoneNumber req) knownDB).1 in
  touched ≠ [] ∧
  ∃ p resp db',
    (findOldestContact touched).2 = Some p ∧
    Identify inOrder req 2 knownDB = (Some resp, db') ∧
    (newInformation touched req →
       ID <$> table db' = (ID <$> table knownDB) ++ [seq knownDB + 1] ∧
       mkContact (seq knownDB + 1) (reqPhoneNumber req) (reqEmail req) (Some (ID p))
                 "secondary" 2 2 None ∈ table db') ∧
    (¬ newInformation touched req → ID <$> table db' = ID <$> table knownDB).
Proof.
  intros req touched.
  assert (touched ≠ []) as Hne by (vm_compute; discriminate).
  split; [exact Hne|].
  exact (secondary_created_iff_new_information inOrder req 2 knownDB
           inOrder_fair knownDB_consistent Hne).
Defined.

(** ** C6: no record found *)

Lemma groupOf_fresh db row :
  consistent db → ID row = seq db + 1 → live row →
  groupOf (table db ++ [row]) (seq db + 1) = [row].
Proof.
  intros Hdb Hid Hlive. unfold groupOf. rewrite filter_app.
  rewrite filter_none.
  - rewrite filter_cons_True by (split; [by left|done]). done.
  - apply Forall_forall. intros c Hc [[Heq|Hl] _].
    + apply (ids_bounded db Hdb) in Hc. lia.
    + apply (links_bounded db Hdb c _ Hc) in Hl. lia.
Qed.

Lemma project_singleton o pid row :
  fair o → ID row = pid →
  project o pid [row] =
  mkResponse pid (own (Email row)) (own (PhoneNumber row)) [].
Proof.
  intros Hfair Hid.
  destruct (project_spec o pid row [row] Hfair) as (H1 & H2 & H3 & H4);
    [apply NoDup_singleton|by left|done|].
  assert (∀ field mine rest,
            distinctOthers field mine [row] rest → field row = mine → rest = [])
    as Hnone.
  { intros field mine rest [_ Hrest] Hf. apply elem_of_nil_inv. intros v Hv.
    apply Hrest in Hv as (_ & Hne & c & Hc & Hfc).
    apply list_elem_of_singleton in Hc. subst c. congruence. }
  destruct H2 as (rest1 & He & Hd1 & _), H3 as (rest2 & Hp & Hd2 & _).
  rewrite (Hnone _ _ _ Hd1 eq_refl), app_nil_r in He.
  rewrite (Hnone _ _ _ Hd2 eq_refl), app_nil_r in Hp.
  rewrite filter_cons_False, filter_nil in H4 by (by intros ?).
  destruct (project o pid [row]). simpl in *. congruence.
Qed.

(** C6: when discovery finds nothing, [Identify] appends exactly one row,
    a primary without link carrying the supplied email and phone number
    under the next id, and answers with that id, the supplied non-empty
    values and no secondary id. *)
Theorem Identify_without_match_creates_primary
    (o : MapOrder) (req : IdentifyRequest) (now : Time) (db : DB) :
  fair o → consistent db →
  (findLinkedContacts o (reqEmail req) (reqPhoneNumber req) db).1 = [] →
  ∃ db',
    Identify o req now db =
      (Some (mkIdentifyResponse
               (mkResponse (seq db + 1) (own (reqEmail req))
                           (own (reqPhoneNumber req)) [])), db') ∧
    table db' = table db ++
      [mkContact (seq db + 1) (reqPhoneNumber req) (reqEmail req) None
                 "primary" now now None].
Proof.
  intros Hfair Hdb Hnone.
  destruct (Identify_outcome o req now db Hfair Hdb) as (db2 & HId & Ht2 & _ & _).
  rewrite Hnone in HId, Ht2. unfold primaryAfter, tableAfter in *.
  change (sortSlice []) with (@nil Contact) in *. cbv iota in *.
  exists (afterResponse db2 (seq db + 1)). split; [|exact Ht2].
  rewrite HId, Ht2. do 3 f_equal.
  rewrite (groupOf_fresh db (primaryRow req now (seq db + 1))); [|done..].
  by rewrite (project_singleton o (seq db + 1) (primaryRow req now (seq db + 1))).
Qed.

Lemma Identify_without_match_creates_primary_witness :
  ∃ db',
    Identify inOrder (mkRequest (Some "v@x.com") (Some EmptyString)) 2 knownDB =
      (Some (mkIdentifyResponse (mkResponse 2 ["v@x.com"] [] [])), db') ∧
    table db' = table knownDB ++
      [mkContact 2 (Some EmptyString) (Some "v@x.com") None "primary" 2 2 None].
Proof.
  apply (Identify_without_match_creates_primary inOrder
           (mkRequest (Some "v@x.com") (Some EmptyString)) 2 knownDB
           inOrder_fair knownDB_consistent).
  vm_compute. reflexivity.
Defined.

(** ** C9: the response *)

(** C9: [Identify] answers; the id it reports is that of a live row [p] of
    the resulting table, and with [group] the rows the group query returns
    for that id:
    - [emails] is [p]'s email (unless nil or empty) followed by the other
      non-empty emails of the group, each exactly once;
    - likewise for [phoneNumbers];
    - [secondaryContactIds] is the ids of the group's rows other than [p]. *)
Theorem Identify_response_projects_group
    (o : MapOrder) (req : IdentifyRequest) (now : Time) (db : DB) :
  fair o → consistent db →
  ∃ resp db' p,
    Identify o req now db = (Some (mkIdentifyResponse resp), db') ∧
    p ∈ table db' ∧ live p ∧ ID p = PrimaryContactID resp ∧
    let group := groupOf (table db') (ID p) in
    (∃ rest, Emails resp = own (Email p) ++ rest ∧
             distinctOthers Email (Email p) group rest ∧
             NoDup (Emails resp)) ∧
    (∃ rest, PhoneNumbers resp = own (PhoneNumber p) ++ rest ∧
             distinctOthers PhoneNumber (PhoneNumber p) group rest ∧
             NoDup (PhoneNumbers resp)) ∧
    SecondaryContactIDs resp = ID <$> filter (λ c, ID c ≠ ID p) group.
Proof.
  intros Hfair Hdb.
  destruct (Identify_outcome o req now db Hfair Hdb)
    as (db2 & HId & _ & Hdb2 & p & Hp & Hid & Hlive).
  set (pid := primaryAfter db _) in *.
  eexists _, _, p. split; [exact HId|].
  cbn [table afterResponse]. split; [done|]. split; [done|].
  split; [exact Hid|]. rewrite Hid.
  apply (project_spec o pid p (groupOf (table db2) pid) Hfair).
  - unfold groupOf. apply (NoDup_fmap_2_strong ID).
    + intros c d [_ Hc]%list_elem_of_filter [_ Hd]%list_elem_of_filter Heq.
      by apply (ids_unique_eq (table db2) c d (ids_unique db2 Hdb2)).
    + apply NoDup_filter.
      eapply NoDup_fmap_1, (ids_unique db2 Hdb2).
  - apply list_elem_of_filter. split; [|done]. split; [by left|done].
  - done.
Qed.

Lemma Identify_response_projects_group_witness :
  ∃ resp db' p,
    Identify inOrder (mkRequest (Some "u@x.com") (Some "222")) 2 knownDB
      = (Some (mkIdentifyResponse resp), db') ∧
    p ∈ table db' ∧ live p ∧ ID p = PrimaryContactID resp ∧
    let group := groupOf (table db') (ID p) in
    (∃ rest, Emails resp = own (Email p) ++ rest ∧
             distinctOthers Email (Email p) group rest ∧
             NoDup (Emails resp)) ∧
    (∃ rest, PhoneNumbers resp = own (PhoneNumber p) ++ rest ∧
             distinctOthers PhoneNumber (PhoneNumber p) group rest ∧
             NoDup (PhoneNumbers resp)) ∧
    SecondaryContactIDs resp = ID <$> filter (λ c, ID c ≠ ID p) group.
Proof.
  exact (Identify_response_projects_group inOrder
           (mkRequest (Some "u@x.com") (Some "222")) 2 knownDB
           inOrder_fair knownDB_consistent).
Defined.

(** ** Runs from the empty store *)

Lemma emptyDB_consistent : consistent emptyDB.
Proof.
  split; simpl.
  - apply NoDup_nil_2.
  - intros c Hc. by apply elem_of_nil in Hc.
  - intros c l Hc. by apply elem_of_nil in Hc.
Qed.

Lemma identify_consistent c db :
  fair (callOrder c) → consistent db →
  ∃ resp db', identify c db = (Some resp, db') ∧ consistent db'.
Proof.
  intros Hfair Hdb. unfold identify.
  destruct (Identify_outcome (callOrder c) (mkRequest (callEmail c) (callPhone c))
              (callTime c) db Hfair Hdb) as (db2 & HId & _ & Hdb2 & _).
  eexists _, _. split; [exact HId|]. by eapply consistent_reads.
Qed.

(** Every sequence of calls runs to completion, and the store stays
    consistent. *)
Lemma runCalls_consistent calls db :
  Forall (λ c, fair (callOrder c)) calls → consistent db →
  ∃ db', runCalls calls db = Some db' ∧ consistent db'.
Proof.
  revert db. induction calls as [|c calls IH]; intros db Hfair Hdb; simpl.
  { by exists db. }
  apply Forall_cons in Hfair as [Hc Hfair].
  destruct (identify_consistent c db Hc Hdb) as (resp & db1 & -> & Hdb1).
  by apply IH.
Qed.

(** ** C1: the single-primary invariant *)

Definition isPrimary (c : Contact) : Prop :=
  LinkPrecedence c = "primary" ∧ LinkedID c = None.

(** Two records are linked when one refers to the other; a group is a
    connected component of that relation. *)
Definition linked (c d : Contact) : Prop :=
  LinkedID c = Some (ID d) ∨ LinkedID d = Some (ID c).

Definition sameGroup (t : list Contact) : relation Contact :=
  rtc (λ c d, c ∈ t ∧ d ∈ t ∧ linked c d).

(** Every record's group has a primary [p] without link; it is the only
    one, and every other record of the group is a secondary whose link is
    [p]'s id. *)
Definition singlePrimaryInvariant (t : list Contact) : Prop :=
  ∀ c, c ∈ t →
    ∃ p, p ∈ t ∧ sameGroup t c p ∧ isPrimary p ∧
      ∀ d, d ∈ t → sameGroup t c d →
        (isPrimary d → d = p) ∧
        (d ≠ p → LinkPrecedence d = "secondary" ∧ LinkedID d = Some (ID p)).

(** Two people, the second seen twice, then a request naming the first
    one's email and the second one's phone number. *)
Definition mergeCalls : list Call :=
  [ mkCall inOrder (Some "a@x.com") (Some "1") 1;
    mkCall inOrder (Some "b@x.com") (Some "2") 2;
    mkCall inOrder (Some "b@x.com") (Some "3") 3 ].

Definition mergeCall : Call := mkCall inOrder (Some "a@x.com") (Some "2") 4.

Definition rowA : Contact :=
  mkContact 1 (Some "1") (Some "a@x.com") None "primary" 1 1 None.
Definition rowB : Contact :=
  mkContact 2 (Some "2") (Some "b@x.com") None "primary" 2 2 None.
Definition rowS : Contact :=
  mkContact 3 (Some "3") (Some "b@x.com") (Some 2) "secondary" 3 3 None.
Definition rowB' : Contact :=
  mkContact 2 (Some "2") (Some "b@x.com") (Some 1) "secondary" 2 4 None.

(** C1 fails on the code: after the four calls record 3 still refers to
    record 2, which has become a secondary of record 1. *)
Theorem merge_breaks_single_primary_invariant :
  ∃ db, runCalls (mergeCalls ++ [mergeCall]) emptyDB = Some db ∧
        table db = [rowA; rowB'; rowS] ∧
        ¬ singlePrimaryInvariant (table db).
Proof.
  eexists. split; [by vm_compute|]. split; [done|].
  cbn [table]. intros Hinv.
  destruct (Hinv rowS) as (p & Hp & _ & [Hprim _] & Hall).
  { compute_done. }
  destruct (Hall rowS) as [_ Hsec]; [compute_done|apply rtc_refl|].
  assert (p = rowA) as ->.
  { repeat (apply elem_of_cons in Hp as [->|Hp]); [done|done|done|].
    by apply elem_of_nil in Hp. }
  destruct Hsec as [_ Hlink]; done.
Qed.

(** ** C2: merging two groups *)

(** C2 fails on the code: [rowA] and [rowB] are primaries created
    independently, [rowA] first, and [rowS] is a secondary of [rowB]. The
    request with [rowA]'s email and [rowB]'s phone number demotes [rowB]
    under [rowA], but [rowS] matches neither value, is not fetched, and
    keeps its link to [rowB]; the response does not list it. *)
Theorem merge_leaves_secondaries_of_demoted_primary :
  ∃ db0 db resp,
    runCalls mergeCalls emptyDB = Some db0 ∧
    table db0 = [rowA; rowB; rowS] ∧
    isPrimary rowA ∧ isPrimary rowB ∧ CreatedAt rowA < CreatedAt rowB ∧
    LinkPrecedence rowS = "secondary" ∧ LinkedID rowS = Some (ID rowB) ∧
    Identify inOrder (mkRequest (Email rowA) (PhoneNumber rowB)) 4 db0
      = (Some resp, db) ∧
    table db = [rowA; rowB'; rowS] ∧
    LinkPrecedence rowB' = "secondary" ∧ LinkedID rowB' = Some (ID rowA) ∧
    LinkedID rowS ≠ Some (ID rowA) ∧
    SecondaryContactIDs (Contact_ resp) = [ID rowB].
Proof.
  eexists _, _, _. split; [by vm_compute|].
  split; [done|]. do 5 (split; [done|]).
  split; [by vm_compute|]. by split_and!.
Qed.

(** ** C3: what discovery fetches for a linked id *)

Definition splitCalls : list Call :=
  [ mkCall inOrder (Some "u@x.com") (Some "111") 1;
    mkCall inOrder (Some "u@x.com") (Some "222") 2 ].

Definition rowRoot : Contact :=
  mkContact 1 (Some "111") (Some "u@x.com") None "primary" 1 1 None.
Definition rowSec : Contact :=
  mkContact 2 (Some "222") (Some "u@x.com") (Some 1) "secondary" 2 2 None.

(** C3 fails on the code: a request matching only the secondary [rowSec]
    finds the linked id 1, but the query by [linked_id] returns the rows
    that refer to 1, not row 1 itself. The touched set is [rowSec] alone,
    although [rowRoot] belongs to the group rooted at 1, and [Identify]
    goes on to make [rowSec] a primary. *)
Theorem discovery_omits_the_group_root :
  ∃ db, runCalls splitCalls emptyDB = Some db ∧
        table db = [rowRoot; rowSec] ∧
        let touched := (findLinkedContacts inOrder None (Some "222") db).1 in
        touched = [rowSec] ∧
        LinkedID rowSec = Some (ID rowRoot) ∧
        rowRoot ∈ groupOf (table db) (ID rowRoot) ∧
        (rowRoot ∉ touched) ∧
        PrimaryContactID <$> (Contact_ <$>
          (Identify inOrder (mkRequest None (Some "222")) 3 db).1) = Some (ID rowSec).
Proof.
  eexists. split; [by vm_compute|]. split; [done|].
  cbn zeta.
  split; [by vm_compute|]. split; [done|].
  split; [compute_done|]. split; [|by vm_compute].
  compute_done.
Qed.

(** * Further properties of the service *)

(** ** Discovery as a function of the table *)

Definition linkedRows (t : list Contact) (linkedID : Z) : list Contact :=
  filter (λ c, LinkedID c = Some linkedID ∧ live c) t.

(** The map after the queries by email and by phone number. *)
Definition matched (t : list Contact) (email phoneNumber : option string)
    : gmap Z Contact :=
  let m :=
    match supplied email with
    | Some e => storeAll (filter (λ c, Email c = Some e ∧ live c) t) ∅
    | None => ∅
    end in
  match supplied phoneNumber with
  | Some p => storeAll (filter (λ c, PhoneNumber c = Some p ∧ live c) t) m
  | None => m
  end.

Definition linkedIDsOf (contacts : list Contact) : gset Z :=
  foldl (λ s c, match LinkedID c with Some l => {[l]} ∪ s | None => s end)
        ∅ contacts.

(** The map after the queries by linked id. *)
Definition fetchAll (t : list Contact) (ids : list Z) (m : gmap Z Contact)
    : gmap Z Contact :=
  foldl (λ m i, storeAll (linkedRows t i) m) m ids.

Definition touchedOf (o : MapOrder) (t : list Contact)
    (email phoneNumber : option string) : list Contact :=
  let m := matched t email phoneNumber in
  rangeValues o (fetchAll t (o _ (elements (linkedIDsOf (rangeValues o m)))) m).

Lemma fetchLinked_fst ids m db :
  (fetchLinked ids m db).1 = fetchAll (table db) ids m.
Proof.
  revert m db. induction ids as [|i ids IH]; intros m db; [done|].
  cbn [fetchLinked]. rewrite bind_eq.
  unfold queryContactsByLinkedID. rewrite queryContacts_eq. cbn [fst snd].
  by rewrite IH.
Qed.

Lemma findLinkedContacts_fst o email phoneNumber db :
  (findLinkedContacts o email phoneNumber db).1
  = touchedOf o (table db) email phoneNumber.
Proof.
  unfold findLinkedContacts, touchedOf, matched, linkedIDsOf.
  destruct (supplied email) as [e|], (supplied phoneNumber) as [p|];
    rewrite ?bind_eq; cbn [fst snd ret];
    unfold queryContactsByEmail, queryContactsByPhoneNumber;
    rewrite ?queryContacts_eq; cbn [fst snd ret];
    by rewrite fetchLinked_fst.
Qed.

(** A request value matches a record on one of the two fields. *)
Definition matches (email phoneNumber : option string) (c : Contact) : Prop :=
  (∃ e, supplied email = Some e ∧ Email c = Some e) ∨
  (∃ p, supplied phoneNumber = Some p ∧ PhoneNumber c = Some p).

Lemma storeAll_lookup cs (m : gmap Z Contact) k c :
  storeAll cs m !! k = Some c → m !! k = Some c ∨ (c ∈ cs ∧ ID c = k).
Proof.
  unfold storeAll. revert m. induction cs as [|d cs IH]; intros m Hl; [by left|].
  cbn [foldl] in Hl. apply IH in Hl as [Hl|[Hc Hk]].
  - destruct (decide (ID d = k)) as [<-|Hne].
    + rewrite lookup_insert_eq in Hl. injection Hl as ->. right. split; [left|done].
    + rewrite lookup_insert_ne in Hl by done. by left.
  - right. split; [by right|done].
Qed.

Lemma storeAll_holds t cs (m : gmap Z Contact) c :
  NoDup (ID <$> t) → cs ⊆ t → c ∈ t →
  m !! ID c = Some c ∨ c ∈ cs → storeAll cs m !! ID c = Some c.
Proof.
  intros Hnd. unfold storeAll. revert m.
  induction cs as [|d cs IH]; intros m Hsub Hc Hor.
  { destruct Hor as [?|Hin]; [done|by apply elem_of_nil in Hin]. }
  cbn [foldl]. apply IH; [by intros x Hx; apply Hsub; right|done|].
  destruct (decide (ID d = ID c)) as [Heq|Hne].
  - left. assert (d = c) as ->.
    { apply (ids_unique_eq t); [done|apply Hsub; left|done|done]. }
    apply lookup_insert_eq.
  - destruct Hor as [Hm|[->|Hin]%elem_of_cons]; [|done|by right].
    left. by rewrite lookup_insert_ne.
Qed.

Lemma filter_sub {A} (P : A → Prop) `{∀ x, Decision (P x)} (l : list A) :
  filter P l ⊆ l.
Proof. intros x Hx. by apply list_elem_of_filter in Hx as [_ ?]. Qed.

Lemma matched_lookup t email phoneNumber k c :
  matched t email phoneNumber !! k = Some c →
  ID c = k ∧ stored t c ∧ matches email phoneNumber c.
Proof.
  unfold matched, matches.
  destruct (supplied email) as [e|], (supplied phoneNumber) as [p|]; intros Hl;
    repeat (apply storeAll_lookup in Hl
              as [Hl|[[[Hf Hlive] Hin]%list_elem_of_filter Hk]];
            [|split; [done|]; split; [done|]; eauto]);
    by rewrite lookup_empty in Hl.
Qed.

Lemma matched_holds t email phoneNumber c :
  NoDup (ID <$> t) → stored t c → matches email phoneNumber c →
  matched t email phoneNumber !! ID c = Some c.
Proof.
  intros Hnd [Hc Hlive] Hm. unfold matched, matches in *.
  destruct (supplied email) as [e|], (supplied phoneNumber) as [p|];
    destruct Hm as [(x & [= <-] & Hf)|(x & [= <-] & Hf)];
    repeat (apply (storeAll_holds t); [done|apply filter_sub|done|]);
    first [ by right; apply list_elem_of_filter
          | left; apply (storeAll_holds t); [done|apply filter_sub|done|];
            by right; apply list_elem_of_filter ].
Qed.

Lemma fetchAll_lookup t ids (m : gmap Z Contact) k c :
  fetchAll t ids m !! k = Some c →
  m !! k = Some c ∨ ∃ i, i ∈ ids ∧ c ∈ linkedRows t i ∧ ID c = k.
Proof.
  unfold fetchAll. revert m. induction ids as [|i ids IH]; intros m Hl; [by left|].
  cbn [foldl] in Hl. apply IH in Hl as [Hl|(j & Hj & Hc & Hk)].
  - apply storeAll_lookup in Hl as [Hl|[Hc Hk]]; [by left|].
    right. exists i. split; [left|done].
  - right. exists j. split; [by right|done].
Qed.

Lemma fetchAll_holds t ids (m : gmap Z Contact) c :
  NoDup (ID <$> t) → c ∈ t →
  m !! ID c = Some c ∨ (∃ i, i ∈ ids ∧ c ∈ linkedRows t i) →
  fetchAll t ids m !! ID c = Some c.
Proof.
  intros Hnd Hc. unfold fetchAll. revert m.
  induction ids as [|i ids IH]; intros m Hor.
  { destruct Hor as [?|(i & Hi & _)]; [done|by apply elem_of_nil in Hi]. }
  cbn [foldl]. apply IH.
  destruct Hor as [Hm|(j & [->|Hj]%elem_of_cons & Hin)].
  - left. apply (storeAll_holds t); [done|apply filter_sub|done|by left].
  - left. apply (storeAll_holds t); [done|apply filter_sub|done|by right].
  - right. by exists j.
Qed.

Lemma linkedIDsOf_spec contacts l :
  l ∈ linkedIDsOf contacts ↔ ∃ c, c ∈ contacts ∧ LinkedID c = Some l.
Proof.
  unfold linkedIDsOf.
  assert (∀ s : gset Z,
            l ∈ foldl (λ s c, match LinkedID c with
                              | Some l => {[l]} ∪ s | None => s end) s contacts
            ↔ l ∈ s ∨ ∃ c, c ∈ contacts ∧ LinkedID c = Some l) as Hgen.
  { induction contacts as [|c cs IH]; intros s; cbn [foldl].
    { split; [by left|]. intros [?|(c & Hc & _)]; [done|].
      by apply elem_of_nil in Hc. }
    rewrite IH. split.
    - intros [Hs|(d & Hd & Hl)].
      + destruct (LinkedID c) as [x|] eqn:Hx; [|by left].
        apply elem_of_union in Hs as [->%elem_of_singleton|Hs]; [|by left].
        right. exists c. split; [left|done].
      + right. exists d. split; [by right|done].
    - intros [Hs|(d & [->|Hd]%elem_of_cons & Hl)].
      + left. destruct (LinkedID c); [|done]. apply elem_of_union. by right.
      + left. rewrite Hl. apply elem_of_union. left. by apply elem_of_singleton.
      + right. by exists d. }
  rewrite Hgen. split; [intros [H|H]; [by apply not_elem_of_empty in H|done]|by right].
Qed.

Lemma rangeValues_spec o (m : gmap Z Contact) c :
  fair o → c ∈ rangeValues o m ↔ ∃ k, m !! k = Some c.
Proof.
  intros Hfair. split; [by apply rangeValues_lookup|].
  intros [k Hk]. unfold rangeValues. apply list_elem_of_fmap.
  exists (k, c). split; [done|]. rewrite (Hfair _ _). by apply elem_of_map_to_list.
Qed.

(** A record is reached when it matches the request, or shares its linked
    id with a stored record that does. *)
Definition reached (t : list Contact) (email phoneNumber : option string)
    (c : Contact) : Prop :=
  stored t c ∧
  (matches email phoneNumber c ∨
   ∃ m l, stored t m ∧ matches email phoneNumber m ∧
          LinkedID m = Some l ∧ LinkedID c = Some l).

Lemma touchedOf_reached o t email phoneNumber c :
  fair o → c ∈ touchedOf o t email phoneNumber → reached t email phoneNumber c.
Proof.
  intros Hfair Hc. unfold touchedOf in Hc.
  apply (rangeValues_spec _ _ _ Hfair) in Hc as [k Hk].
  apply fetchAll_lookup in Hk as [Hk|(i & Hi & Hrow & _)].
  - apply matched_lookup in Hk as (_ & Hst & Hm). split; [done|by left].
  - rewrite (Hfair _ _), elem_of_elements, linkedIDsOf_spec in Hi.
    destruct Hi as (m & Hm & Hl).
    apply (rangeValues_spec _ _ _ Hfair) in Hm as [k' Hk'].
    apply matched_lookup in Hk' as (_ & Hst & Hmatch).
    apply list_elem_of_filter in Hrow as [[Hlc Hlive] Hin].
    split; [done|]. right. by exists m, i.
Qed.

Lemma touchedOf_complete o t email phoneNumber c :
  fair o → NoDup (ID <$> t) →
  reached t email phoneNumber c → c ∈ touchedOf o t email phoneNumber.
Proof.
  intros Hfair Hnd [[Hc Hlive] Hor]. unfold touchedOf.
  apply (rangeValues_spec _ _ _ Hfair). exists (ID c).
  apply (fetchAll_holds t); [done..|].
  destruct Hor as [Hm|(m & l & Hst & Hm & Hlm & Hlc)].
  - left. by apply matched_holds.
  - right. exists l. split.
    + rewrite (Hfair _ _), elem_of_elements, linkedIDsOf_spec.
      exists m. split; [|done].
      apply (rangeValues_spec _ _ _ Hfair). exists (ID m). by apply matched_holds.
    + by apply list_elem_of_filter.
Qed.

(** X1: on a table whose ids are unique, the touched set is exactly the
    set of live rows that carry the supplied email or phone number, or
    whose linked id is the linked id of such a row. *)
Theorem findLinkedContacts_exact
    (o : MapOrder) (email phoneNumber : option string) (db : DB) (c : Contact) :
  fair o → NoDup (ID <$> table db) →
  c ∈ (findLinkedContacts o email phoneNumber db).1
  ↔ reached (table db) email phoneNumber c.
Proof.
  intros Hfair Hnd. rewrite findLinkedContacts_fst. split.
  - by apply touchedOf_reached.
  - by apply touchedOf_complete.
Qed.

Definition familyDB : DB :=
  mkDB [ mkContact 1 (Some "111") (Some "u@x.com") None "primary" 1 1 None;
         mkContact 2 (Some "222") (Some "u@x.com") (Some 1) "secondary" 2 2 None;
         mkContact 3 (Some "333") (Some "w@x.com") (Some 1) "secondary" 3 3 None;
         mkContact 4 (Some "444") (Some "z@x.com") None "primary" 4 4 (Some 9) ]
       4 [].

Lemma familyDB_ids : NoDup (ID <$> table familyDB).
Proof. compute_done. Defined.

Lemma findLinkedContacts_exact_witness :
  let c := mkContact 3 (Some "333") (Some "w@x.com") (Some 1) "secondary" 3 3 None in
  c ∈ (findLinkedContacts inOrder None (Some "222") familyDB).1
  ↔ reached (table familyDB) None (Some "222") c.
Proof.
  exact (findLinkedContacts_exact inOrder None (Some "222") familyDB _
           inOrder_fair familyDB_ids).
Defined.

(** X2: the touched set never holds two records with the same id,
    whatever the table. *)
Theorem findLinkedContacts_distinct_ids
    (o : MapOrder) (email phoneNumber : option string) (db : DB) :
  fair o → NoDup (ID <$> (findLinkedContacts o email phoneNumber db).1).
Proof.
  intros Hfair. rewrite findLinkedContacts_fst. unfold touchedOf, rangeValues.
  set (m := fetchAll _ _ _).
  assert (∀ k c, m !! k = Some c → ID c = k) as Hkey.
  { intros k c Hk. subst m.
    apply fetchAll_lookup in Hk as [Hk|(i & _ & _ & Hid)]; [|done].
    by apply matched_lookup in Hk as (? & _). }
  rewrite (Hfair _ _).
  rewrite <- list_fmap_compose.
  rewrite (list_fmap_ext _ fst (map_to_list m)).
  - apply NoDup_fst_map_to_list.
  - intros _ [k c] Hin%list_elem_of_lookup_2%elem_of_map_to_list. simpl.
    by apply Hkey.
Qed.

Lemma findLinkedContacts_distinct_ids_witness :
  ID <$> (findLinkedContacts inOrder (Some "u@x.com") (Some "222") familyDB).1
    = [3; 2; 1] ∧
  NoDup (ID <$> (findLinkedContacts inOrder (Some "u@x.com") (Some "222") familyDB).1).
Proof.
  split; [vm_compute; reflexivity|].
  exact (findLinkedContacts_distinct_ids inOrder (Some "u@x.com") (Some "222")
           familyDB inOrder_fair).
Defined.

(** ** Discovery only reads *)

Lemma fetchLinked_snd ids m db :
  (fetchLinked ids m db).2 =
  mkDB (table db) (seq db) (trace db ++ (SelectByLinkedID <$> ids)).
Proof.
  revert m db. induction ids as [|i ids IH]; intros m db.
  { simpl. rewrite app_nil_r. by destruct db. }
  cbn [fetchLinked]. rewrite bind_eq.
  unfold queryContactsByLinkedID. rewrite queryContacts_eq. cbn [fst snd].
  rewrite IH. cbn [table seq trace]. by rewrite fmap_cons, <- app_assoc.
Qed.

Lemma findLinkedContacts_snd o email phoneNumber db :
  (findLinkedContacts o email phoneNumber db).2 =
  mkDB (table db) (seq db)
       (trace db ++
        discoveryTrace email phoneNumber
          (o _ (elements (linkedIDsOf
                  (rangeValues o (matched (table db) email phoneNumber)))))).
Proof.
  unfold findLinkedContacts, discoveryTrace, matched, linkedIDsOf.
  destruct (supplied email) as [e|], (supplied phoneNumber) as [p|];
    rewrite ?bind_eq; cbn [fst snd ret];
    unfold queryContactsByEmail, queryContactsByPhoneNumber;
    rewrite ?queryContacts_eq; cbn [fst snd ret];
    rewrite fetchLinked_snd; cbn [table seq trace];
    by rewrite <- ?app_assoc.
Qed.

(** X3: discovery leaves the table and the id counter as they are. On a
    table with unique ids it runs at most one query by email and one by
    phone number (none for a nil or empty value), then exactly one query
    per distinct linked id found on the matching rows, and nothing else. *)
Theorem findLinkedContacts_reads_only
    (o : MapOrder) (email phoneNumber : option string) (db : DB) :
  fair o → NoDup (ID <$> table db) →
  let db' := (findLinkedContacts o email phoneNumber db).2 in
  table db' = table db ∧ seq db' = seq db ∧
  ∃ ids,
    trace db' = trace db ++
      match supplied email with Some e => [SelectByEmail e] | None => [] end ++
      match supplied phoneNumber with Some p => [SelectByPhoneNumber p] | None => [] end ++
      (SelectByLinkedID <$> ids) ∧
    NoDup ids ∧
    ∀ l, l ∈ ids ↔ ∃ m, stored (table db) m ∧ matches email phoneNumber m ∧
                        LinkedID m = Some l.
Proof.
  intros Hfair Hnd. rewrite findLinkedContacts_snd. cbn [table seq trace].
  split; [done|]. split; [done|]. eexists. split; [reflexivity|]. split.
  - rewrite (Hfair _ _). apply NoDup_elements.
  - intros l. rewrite (Hfair _ _), elem_of_elements, linkedIDsOf_spec. split.
    + intros (m & Hm & Hl). exists m.
      apply (rangeValues_spec _ _ _ Hfair) in Hm as [k Hk].
      by apply matched_lookup in Hk as (_ & ? & ?).
    + intros (m & Hst & Hmatch & Hl). exists m. split; [|done].
      apply (rangeValues_spec _ _ _ Hfair). exists (ID m). by apply matched_holds.
Qed.

Lemma findLinkedContacts_reads_only_witness :
  let db' := (findLinkedContacts inOrder (Some EmptyString) (Some "222") familyDB).2 in
  trace db' = [SelectByPhoneNumber "222"; SelectByLinkedID 1] ∧
  table db' = table familyDB ∧ seq db' = seq familyDB ∧
  ∃ ids,
    trace db' = trace familyDB ++ [] ++ [SelectByPhoneNumber "222"] ++
                (SelectByLinkedID <$> ids) ∧
    NoDup ids ∧
    ∀ l, l ∈ ids ↔ ∃ m, stored (table familyDB) m ∧
                        matches (Some EmptyString) (Some "222") m ∧
                        LinkedID m = Some l.
Proof.
  split; [vm_compute; reflexivity|].
  exact (findLinkedContacts_reads_only inOrder (Some EmptyString) (Some "222")
           familyDB inOrder_fair familyDB_ids).
Defined.

(** ** What every call does to the table *)

(** Whether the call inserts a row. *)
Definition inserts (req : IdentifyRequest) (T : list Contact) : bool :=
  match sortSlice T with
  | [] => true
  | _ => hasNewInformation (sortSlice T) (reqEmail req) (reqPhoneNumber req)
  end.

Lemma sortSlice_nil_inv T : sortSlice T = [] → T = [].
Proof.
  intros H. pose proof (sortSlice_perm T) as Hp. rewrite H in Hp.
  by apply Permutation_nil in Hp.
Qed.

Lemma Identify_result o req now db :
  let T := (findLinkedContacts o (reqEmail req) (reqPhoneNumber req) db).1 in
  let pid := primaryAfter db T in
  ∃ db2,
    Identify o req now db =
      (Some (mkIdentifyResponse (project o pid (groupOf (table db2) pid))),
       afterResponse db2 pid) ∧
    table db2 = tableAfter req now db T ∧
    seq db2 = if inserts req T then seq db + 1 else seq db.
Proof.
  intros T pid.
  pose proof (findLinkedContacts_snd o (reqEmail req) (reqPhoneNumber req) db) as Hsnd.
  destruct (findLinkedContacts o (reqEmail req) (reqPhoneNumber req) db)
    as [T' db0] eqn:Hfind.
  cbn [fst snd] in *. subst T pid.
  assert (table db0 = table db ∧ seq db0 = seq db) as [Ht0 Hs0] by (by rewrite Hsnd).
  unfold primaryAfter, tableAfter, inserts.
  destruct (decide (T' = [])) as [->|Hne].
  - rewrite (Identify_fresh o req now db db0 Hfind).
    exists (afterInsert db0 (primaryRow req now (seq db0 + 1))).
    change (sortSlice []) with (@nil Contact). cbv iota.
    unfold afterInsert. cbn [table seq ID primaryRow]. by rewrite Hs0, Ht0.
  - destruct (findOldestContact_nonempty T' Hne) as (p & rest & Hsort & _).
    rewrite (Identify_found o req now db db0 T' p rest Hfind Hne Hsort).
    rewrite Hsort. rewrite <- Hsort.
    match goal with |- context [reconcilePrimaryStatus ?l ?i ?n ?d] =>
      destruct (reconcile_table i n l d) as [Ht2 Hs2] end.
    eexists. split; [reflexivity|]. rewrite Ht2, Hs2.
    destruct (hasNewInformation _ _ _); cbn [table seq afterInsert ID secondaryRow];
      by rewrite ?Hs0, ?Ht0.
Qed.

(** X4: [Identify] always returns a response: the nil dereference of
    [primaryContact.ID] cannot happen, whatever the store, the request and
    the iteration order. *)
Theorem Identify_never_dereferences_nil
    (o : MapOrder) (req : IdentifyRequest) (now : Time) (db : DB) :
  ∃ resp, (Identify o req now db).1 = Some resp.
Proof.
  destruct (Identify_result o req now db) as (db2 & -> & _). by eexists.
Qed.

(** The parts of a record that are set at creation. *)
Definition sameData (c c' : Contact) : Prop :=
  ID c' = ID c ∧ Email c' = Email c ∧ PhoneNumber c' = PhoneNumber c ∧
  CreatedAt c' = CreatedAt c ∧ DeletedAt c' = DeletedAt c.

Lemma touch_sameData pid now contacts c : sameData c (touch pid now contacts c).
Proof.
  unfold touch, normalized.
  destruct (decide _); [|done]. by destruct (decide (ID c = pid)).
Qed.

(** X5: a call never removes a row and never changes the id, email, phone
    number, creation time or deletion mark of a stored row; rows keep
    their position, and at most one row is appended: it gets the next id
    and carries the email and phone number of the request. *)
Theorem Identify_keeps_stored_data
    (o : MapOrder) (req : IdentifyRequest) (now : Time) (db : DB) :
  let db' := (Identify o req now db).2 in
  (∀ i c, table db !! i = Some c →
          ∃ c', table db' !! i = Some c' ∧ sameData c c') ∧
  (length (table db') = length (table db) ∧ seq db' = seq db ∨
   ∃ row, table db' !! length (table db) = Some row ∧
          length (table db') = S (length (table db)) ∧
          ID row = seq db + 1 ∧ seq db' = seq db + 1 ∧
          Email row = reqEmail req ∧ PhoneNumber row = reqPhoneNumber req ∧
          CreatedAt row = now ∧ DeletedAt row = None).
Proof.
  destruct (Identify_result o req now db) as (db2 & -> & Ht2 & Hs2).
  cbn [snd table seq afterResponse]. rewrite Ht2, Hs2.
  unfold tableAfter, inserts.
  set (T := (findLinkedContacts _ _ _ _).1).
  destruct (sortSlice T) as [|p rest] eqn:Hsort.
  - split.
    + intros i c Hi. exists c. split; [by apply lookup_app_l_Some|done].
    + right. exists (primaryRow req now (seq db + 1)). split_and!; try done.
      * by rewrite list_lookup_middle.
      * rewrite length_app. simpl. lia.
  - rewrite <- Hsort.
    set (f := touch (ID p) now (sortSlice T)).
    destruct (hasNewInformation _ _ _).
    + split.
      * intros i c Hi. exists (f c). split; [|apply touch_sameData].
        rewrite list_lookup_fmap. by rewrite (lookup_app_l_Some _ _ _ _ Hi).
      * right. exists (f (secondaryRow req now (seq db + 1) (ID p))).
        destruct (touch_sameData (ID p) now (sortSlice T)
                    (secondaryRow req now (seq db + 1) (ID p)))
          as (H1 & H2 & H3 & H4 & H5).
        split_and!; try done.
        -- rewrite fmap_app.
           change (f <$> [secondaryRow req now (seq db + 1) (ID p)])
             with [f (secondaryRow req now (seq db + 1) (ID p))].
           rewrite list_lookup_middle; [done|]. by rewrite length_fmap.
        -- rewrite length_fmap, length_app. simpl. lia.
    + split.
      * intros i c Hi. exists (f c). split; [|apply touch_sameData].
        rewrite list_lookup_fmap. by rewrite Hi.
      * left. by rewrite length_fmap.
Qed.

(** ** The touched set after the call *)

Lemma touch_member_inTarget pid now contacts c :
  c ∈ contacts → inTarget pid (touch pid now contacts c).
Proof.
  intros Hc. unfold touch.
  destruct (decide (Exists _ contacts)) as [HE|HE]; [apply normalized_inTarget|].
  destruct (decide (inTarget pid c)) as [|Hout]; [done|].
  destruct HE. apply Exists_exists. by exists c.
Qed.

Lemma inTarget_groupOf t pid r :
  r ∈ t → live r → inTarget pid r → r ∈ groupOf t pid.
Proof.
  intros Hr Hlive Hin. apply list_elem_of_filter. split; [|done].
  split; [|done]. unfold inTarget in Hin.
  destruct (decide (ID r = pid)); [by left|right; by destruct Hin].
Qed.

(** After a call with a non-empty touched set: every touched record, as
    rewritten by the normalization, is in the table and in the group of the
    selected primary. *)
Lemma tableAfter_touched o req now db c :
  fair o →
  let T := (findLinkedContacts o (reqEmail req) (reqPhoneNumber req) db).1 in
  let pid := primaryAfter db T in
  c ∈ T →
  let r := touch pid now (sortSlice T) c in
  r ∈ tableAfter req now db T ∧ inTarget pid r ∧
  r ∈ groupOf (tableAfter req now db T) pid.
Proof.
  intros Hfair T pid Hc r.
  assert (stored (table db) c) as [Hin Hlive].
  { subst T. rewrite findLinkedContacts_fst in Hc.
    by apply (touchedOf_reached _ _ _ _ _ Hfair) in Hc as [? _]. }
  assert (c ∈ sortSlice T) as Hcs by (by rewrite sortSlice_perm).
  subst r pid. unfold tableAfter, primaryAfter.
  destruct (sortSlice T) as [|p rest] eqn:Hsort; [by apply elem_of_nil in Hcs|].
  rewrite <- Hsort in *.
  assert (touch (ID p) now (sortSlice T) c ∈
          touch (ID p) now (sortSlice T) <$>
            (if hasNewInformation (sortSlice T) (reqEmail req) (reqPhoneNumber req)
             then table db ++ [secondaryRow req now (seq db + 1) (ID p)]
             else table db)) as Hr.
  { apply list_elem_of_fmap_2.
    destruct (hasNewInformation _ _ _); [apply elem_of_app; by left|done]. }
  pose proof (touch_member_inTarget (ID p) now (sortSlice T) c Hcs) as Ht.
  split; [done|]. split; [done|].
  apply inTarget_groupOf; [done| |done]. by apply touch_live.
Qed.

(** X6: after a call, the row stored under the id of any touched record
    is in its target state for the primary the response names: precedence
    primary for that id itself, and otherwise precedence secondary with a
    link to it. *)
Theorem Identify_normalizes_touched_set
    (o : MapOrder) (req : IdentifyRequest) (now : Time) (db : DB) :
  fair o → consistent db →
  let T := (findLinkedContacts o (reqEmail req) (reqPhoneNumber req) db).1 in
  ∃ resp db',
    Identify o req now db = (Some (mkIdentifyResponse resp), db') ∧
    ∀ c row, c ∈ T → row ∈ table db' → ID row = ID c →
      if decide (ID row = PrimaryContactID resp)
      then LinkPrecedence row = "primary"
      else LinkPrecedence row = "secondary" ∧
           LinkedID row = Some (PrimaryContactID resp).
Proof.
  intros Hfair Hdb T.
  destruct (Identify_result o req now db) as (db2 & HId & Ht2 & _).
  fold T in HId, Ht2. eexists _, _. split; [exact HId|].
  cbn [table afterResponse PrimaryContactID project].
  intros c row Hc Hrow Hid.
  destruct (tableAfter_touched o req now db c Hfair Hc) as (_ & Htarget & _).
  fold T in Htarget.
  assert (stored (table db) c) as [Hin _].
  { subst T. rewrite findLinkedContacts_fst in Hc.
    by apply (touchedOf_reached _ _ _ _ _ Hfair) in Hc as [? _]. }
  enough (row = touch (primaryAfter db T) now (sortSlice T) c) as -> by exact Htarget.
  rewrite Ht2 in Hrow. unfold tableAfter, primaryAfter in *.
  assert (c ∈ sortSlice T) as Hcs by (by rewrite sortSlice_perm).
  destruct (sortSlice T) as [|p rest] eqn:Hsort; [by apply elem_of_nil in Hcs|].
  rewrite <- Hsort in *.
  apply list_elem_of_fmap in Hrow as (r0 & -> & Hr0).
  rewrite touch_ID in Hid. f_equal.
  assert (r0 ∈ table db) as Hr0'.
  { destruct (hasNewInformation _ _ _); [|done].
    apply elem_of_app in Hr0 as [?|Heq%list_elem_of_singleton]; [done|].
    subst r0. apply (ids_bounded db Hdb) in Hin. simpl in Hid. lia. }
  by apply (ids_unique_eq (table db) r0 c (ids_unique db Hdb)).
Qed.

Definition pairDB : DB :=
  mkDB [ mkContact 1 (Some "1") (Some "a@x.com") None "primary" 1 1 None;
         mkContact 2 (Some "2") (Some "b@x.com") None "primary" 2 2 None ]
       2 [].

Lemma pairDB_consistent : consistent pairDB.
Proof.
  split.
  - compute_done.
  - intros c Hc. repeat (apply elem_of_cons in Hc as [->|Hc]); simpl; try lia.
    by apply elem_of_nil in Hc.
  - intros c l Hc Hl. repeat (apply elem_of_cons in Hc as [->|Hc]); try discriminate Hl.
    by apply elem_of_nil in Hc.
Defined.

Lemma Identify_normalizes_touched_set_witness :
  let req := mkRequest (Some "a@x.com") (Some "2") in
  let T := (findLinkedContacts inOrder (reqEmail req) (reqPhoneNumber req) pairDB).1 in
  ∃ resp db',
    Identify inOrder req 3 pairDB = (Some (mkIdentifyResponse resp), db') ∧
    ∀ c row, c ∈ T → row ∈ table db' → ID row = ID c →
      if decide (ID row = PrimaryContactID resp)
      then LinkPrecedence row = "primary"
      else LinkPrecedence row = "secondary" ∧
           LinkedID row = Some (PrimaryContactID resp).
Proof.
  exact (Identify_normalizes_touched_set inOrder
           (mkRequest (Some "a@x.com") (Some "2")) 3 pairDB
           inOrder_fair pairDB_consistent).
Defined.

(** ** What the response contains *)

Lemma supplied_Some v x : supplied v = Some x ↔ v = Some x ∧ x ≠ EmptyString.
Proof.
  unfold supplied. destruct v as [y|]; [|by split; [|intros []]].
  destruct (decide (y = EmptyString)) as [->|Hne]; split.
  - done.
  - intros [[= <-] ?]. done.
  - intros [= <-]. done.
  - intros [[= <-] _]. done.
Qed.

Lemma known_value (field : Contact → option string) (s : gset string)
    (v : option string) (contacts : list Contact) :
  (∀ x, x ∈ s ↔ ∃ c, c ∈ contacts ∧ field c = Some x) →
  match supplied v with
  | Some x => negb (bool_decide (x ∈ s))
  | None => false
  end = false
  ↔ ∀ x, supplied v = Some x → ∃ c, c ∈ contacts ∧ field c = Some x.
Proof.
  intros Hs. destruct (supplied v) as [y|]; [|by split].
  rewrite negb_false_iff, bool_decide_eq_true, Hs. split.
  - by intros H x [= <-].
  - intros H. by apply H.
Qed.

Lemma hasNewInformation_false contacts email phoneNumber :
  hasNewInformation contacts email phoneNumber = false ↔
  (∀ x, supplied email = Some x → ∃ c, c ∈ contacts ∧ Email c = Some x) ∧
  (∀ x, supplied phoneNumber = Some x → ∃ c, c ∈ contacts ∧ PhoneNumber c = Some x).
Proof.
  rewrite <- (known_value Email (existingEmails contacts) email contacts
                (existingEmails_spec contacts)).
  rewrite <- (known_value PhoneNumber (existingPhones contacts) phoneNumber contacts
                (existingPhones_spec contacts)).
  unfold hasNewInformation. cbv zeta.
  destruct (match supplied email with Some _ => _ | None => _ end),
           (match supplied phoneNumber with Some _ => _ | None => _ end);
    by split; [|intros []].
Qed.

Lemma project_contains o pid group r :
  fair o → r ∈ group →
  (∀ e, Email r = Some e → e ≠ EmptyString → e ∈ Emails (project o pid group)) ∧
  (∀ p, PhoneNumber r = Some p → p ≠ EmptyString →
        p ∈ PhoneNumbers (project o pid group)).
Proof.
  intros Hfair Hr. cbn [Emails PhoneNumbers project]. split.
  - intros e He Hne. apply elem_of_app.
    destruct (decide (e = primaryEmail (scanContacts pid group))) as [<-|Hdiff].
    + left. rewrite decide_True by done. by left.
    + right. rewrite (Hfair _ _), elem_of_elements, collect_spec. eauto.
  - intros p Hp Hne. apply elem_of_app.
    destruct (decide (p = primaryPhone (scanContacts pid group))) as [<-|Hdiff].
    + left. rewrite decide_True by done. by left.
    + right. rewrite (Hfair _ _), elem_of_elements, collect_spec. eauto.
Qed.

Lemma touch_linked_groupOf t pid now contacts r :
  touch pid now contacts r ∈ t → live r → LinkedID r = Some pid →
  touch pid now contacts r ∈ groupOf t pid.
Proof.
  intros Hin Hlive Hl. apply list_elem_of_filter. split; [|done].
  split; [|by apply touch_live].
  unfold touch in *. destruct (decide (Exists _ contacts)); [|by right].
  pose proof (normalized_inTarget pid now r) as Ht. unfold inTarget in Ht.
  destruct (decide (ID (normalized pid now r) = pid)); [by left|right; by destruct Ht].
Qed.

(** Each supplied value is carried by a row of the group of the primary
    the call settles on. *)
Lemma tableAfter_carriers o req now db :
  fair o →
  let T := (findLinkedContacts o (reqEmail req) (reqPhoneNumber req) db).1 in
  let group := groupOf (tableAfter req now db T) (primaryAfter db T) in
  (∀ e, supplied (reqEmail req) = Some e → ∃ r, r ∈ group ∧ Email r = Some e) ∧
  (∀ p, supplied (reqPhoneNumber req) = Some p →
        ∃ r, r ∈ group ∧ PhoneNumber r = Some p).
Proof.
  intros Hfair T group.
  assert (∀ c, c ∈ sortSlice T →
               ∃ r, r ∈ group ∧ Email r = Email c ∧ PhoneNumber r = PhoneNumber c)
    as Hold.
  { intros c Hc. rewrite sortSlice_perm in Hc.
    destruct (tableAfter_touched o req now db c Hfair Hc) as (_ & _ & Hg).
    eexists. split; [exact Hg|].
    by destruct (touch_sameData (primaryAfter db T) now (sortSlice T) c)
      as (_ & ? & ? & _). }
  assert (inserts req T = true →
          ∃ r, r ∈ group ∧ Email r = reqEmail req ∧
               PhoneNumber r = reqPhoneNumber req) as Hnew.
  { subst group. unfold inserts, tableAfter, primaryAfter.
    destruct (sortSlice T) as [|p rest] eqn:Hsort.
    - intros _. exists (primaryRow req now (seq db + 1)). split; [|done].
      apply list_elem_of_filter. split; [split; [by left|done]|].
      apply elem_of_app. right. by apply list_elem_of_singleton.
    - rewrite <- Hsort. intros ->.
      exists (touch (ID p) now (sortSlice T) (secondaryRow req now (seq db + 1) (ID p))).
      split.
      + apply touch_linked_groupOf; [|done..].
        apply list_elem_of_fmap_2, elem_of_app. right. by apply list_elem_of_singleton.
      + by destruct (touch_sameData (ID p) now (sortSlice T)
                       (secondaryRow req now (seq db + 1) (ID p))) as (_ & ? & ? & _). }
  destruct (inserts req T) eqn:Hins.
  - destruct (Hnew eq_refl) as (r & Hr & He & Hp).
    split; intros x [Hx _]%supplied_Some; exists r; (split; [done|congruence]).
  - clear Hnew. unfold inserts in Hins.
    destruct (sortSlice T) as [|p rest] eqn:Hsort; [done|]. rewrite <- Hsort in *.
    apply hasNewInformation_false in Hins as [He Hp].
    split; intros x Hx.
    + destruct (He x Hx) as (c & Hc & Hce).
      destruct (Hold c Hc) as (r & Hr & Hre & _). exists r. split; [done|congruence].
    + destruct (Hp x Hx) as (c & Hc & Hcp).
      destruct (Hold c Hc) as (r & Hr & _ & Hrp). exists r. split; [done|congruence].
Qed.

(** X7: the response always lists the email and the phone number of the
    request (when supplied and non-empty), and the id of every touched
    record other than the primary is among the secondary ids. *)
Theorem Identify_response_covers_request
    (o : MapOrder) (req : IdentifyRequest) (now : Time) (db : DB) :
  fair o →
  let T := (findLinkedContacts o (reqEmail req) (reqPhoneNumber req) db).1 in
  ∃ resp,
    (Identify o req now db).1 = Some (mkIdentifyResponse resp) ∧
    (∀ e, supplied (reqEmail req) = Some e → e ∈ Emails resp) ∧
    (∀ p, supplied (reqPhoneNumber req) = Some p → p ∈ PhoneNumbers resp) ∧
    (∀ c, c ∈ T → ID c ≠ PrimaryContactID resp → ID c ∈ SecondaryContactIDs resp).
Proof.
  intros Hfair T.
  destruct (Identify_result o req now db) as (db2 & -> & Ht2 & _).
  fold T in Ht2 |- *. eexists. split; [reflexivity|]. rewrite Ht2.
  destruct (tableAfter_carriers o req now db Hfair) as [He Hp]. fold T in He, Hp.
  split_and!.
  - intros e Hs. destruct (He e Hs) as (r & Hr & Hre).
    apply supplied_Some in Hs as [_ Hne].
    by apply (project_contains o _ _ r Hfair Hr).
  - intros p Hs. destruct (Hp p Hs) as (r & Hr & Hrp).
    apply supplied_Some in Hs as [_ Hne].
    by apply (project_contains o _ _ r Hfair Hr).
  - intros c Hc Hne. cbn [PrimaryContactID SecondaryContactIDs project] in *.
    unfold scanContacts. rewrite scan_secondaries. cbn [secondaryContactIDs app].
    destruct (tableAfter_touched o req now db c Hfair Hc) as (_ & _ & Hg).
    fold T in Hg. apply list_elem_of_fmap.
    eexists. split; [|apply list_elem_of_filter; split; [|exact Hg]].
    + by rewrite touch_ID.
    + by rewrite touch_ID.
Qed.

Lemma Identify_response_covers_request_witness :
  let req := mkRequest (Some "a@x.com") (Some "2") in
  let T := (findLinkedContacts inOrder (reqEmail req) (reqPhoneNumber req) pairDB).1 in
  ∃ resp,
    (Identify inOrder req 3 pairDB).1 = Some (mkIdentifyResponse resp) ∧
    (∀ e, supplied (reqEmail req) = Some e → e ∈ Emails resp) ∧
    (∀ p, supplied (reqPhoneNumber req) = Some p → p ∈ PhoneNumbers resp) ∧
    (∀ c, c ∈ T → ID c ≠ PrimaryContactID resp → ID c ∈ SecondaryContactIDs resp).
Proof.
  exact (Identify_response_covers_request inOrder
           (mkRequest (Some "a@x.com") (Some "2")) 3 pairDB inOrder_fair).
Defined.

(** ** When a row is inserted *)

(** Every supplied value of the field occurs on a live row. *)
Definition known (t : list Contact) (field : Contact → option string)
    (v : option string) : Prop :=
  ∀ x, supplied v = Some x → ∃ c, stored t c ∧ field c = Some x.

Definition somethingSupplied (req : IdentifyRequest) : Prop :=
  supplied (reqEmail req) ≠ None ∨ supplied (reqPhoneNumber req) ≠ None.

Lemma tableAfter_ids req now db T :
  ID <$> tableAfter req now db T =
  (ID <$> table db) ++ (if inserts req T then [seq db + 1] else []).
Proof.
  unfold tableAfter, inserts. destruct (sortSlice T) as [|p rest] eqn:Hsort.
  - by rewrite fmap_app.
  - rewrite <- Hsort. rewrite touch_ids.
    destruct (hasNewInformation _ _ _); [by rewrite fmap_app|by rewrite app_nil_r].
Qed.

Lemma inserts_false o req db :
  fair o → NoDup (ID <$> table db) →
  inserts req (findLinkedContacts o (reqEmail req) (reqPhoneNumber req) db).1 = false
  ↔ somethingSupplied req ∧
    known (table db) Email (reqEmail req) ∧
    known (table db) PhoneNumber (reqPhoneNumber req).
Proof.
  intros Hfair Hnd.
  set (T := (findLinkedContacts o (reqEmail req) (reqPhoneNumber req) db).1).
  assert (∀ c, c ∈ sortSlice T ↔
               reached (table db) (reqEmail req) (reqPhoneNumber req) c) as HT.
  { intros c. rewrite sortSlice_perm. subst T. rewrite findLinkedContacts_fst.
    split; [by apply touchedOf_reached|by apply touchedOf_complete]. }
  unfold inserts. split.
  - destruct (sortSlice T) as [|p rest] eqn:Hsort; [done|]. rewrite <- Hsort in *.
    intros [He Hp]%hasNewInformation_false. split_and!.
    + assert (p ∈ sortSlice T) as Hps by (rewrite Hsort; left).
      apply HT in Hps as [_ [Hm|(m & _ & _ & Hm & _)]];
        destruct Hm as [(x & Hx & _)|(x & Hx & _)];
        [left|right|left|right]; by rewrite Hx.
    + intros x Hx. destruct (He x Hx) as (c & Hc & Hf).
      exists c. split; [|done]. by apply HT in Hc as [? _].
    + intros x Hx. destruct (Hp x Hx) as (c & Hc & Hf).
      exists c. split; [|done]. by apply HT in Hc as [? _].
  - intros (Hsome & He & Hp).
    assert (∀ x, supplied (reqEmail req) = Some x →
                 ∃ c, c ∈ sortSlice T ∧ Email c = Some x) as He'.
    { intros x Hx. destruct (He x Hx) as (c & Hst & Hf). exists c. split; [|done].
      apply HT. split; [done|]. left. left. eauto. }
    assert (∀ x, supplied (reqPhoneNumber req) = Some x →
                 ∃ c, c ∈ sortSlice T ∧ PhoneNumber c = Some x) as Hp'.
    { intros x Hx. destruct (Hp x Hx) as (c & Hst & Hf). exists c. split; [|done].
      apply HT. split; [done|]. left. right. eauto. }
    destruct (sortSlice T) as [|p rest] eqn:Hsort.
    + exfalso. destruct Hsome as [Hs|Hs].
      * destruct (supplied (reqEmail req)) as [x|] eqn:Hx; [|done].
        destruct (He' x eq_refl) as (c & Hc & _). by apply elem_of_nil in Hc.
      * destruct (supplied (reqPhoneNumber req)) as [x|] eqn:Hx; [|done].
        destruct (Hp' x eq_refl) as (c & Hc & _). by apply elem_of_nil in Hc.
    + rewrite <- Hsort in *. by apply hasNewInformation_false.
Qed.

(** X8: on a table with unique ids, a call inserts no row exactly when the
    request supplies an email or a phone number and every value it
    supplies already occurs on a live row; in every other case it inserts
    one row, under the next id. *)
Theorem Identify_inserts_unless_known
    (o : MapOrder) (req : IdentifyRequest) (now : Time) (db : DB) :
  fair o → NoDup (ID <$> table db) →
  let db' := (Identify o req now db).2 in
  let allKnown :=
    somethingSupplied req ∧ known (table db) Email (reqEmail req) ∧
    known (table db) PhoneNumber (reqPhoneNumber req) in
  (allKnown → ID <$> table db' = ID <$> table db) ∧
  (¬ allKnown → ID <$> table db' = (ID <$> table db) ++ [seq db + 1]).
Proof.
  intros Hfair Hnd.
  destruct (Identify_result o req now db) as (db2 & -> & Ht2 & _).
  cbn [snd table afterResponse]. rewrite Ht2, tableAfter_ids.
  pose proof (inserts_false o req db Hfair Hnd) as Hiff.
  destruct (inserts req _).
  - split; [|done]. intros Hall. by apply Hiff in Hall.
  - rewrite app_nil_r. split; [done|]. intros Hno. destruct Hno. by apply Hiff.
Qed.

Lemma Identify_inserts_unless_known_witness :
  let req := mkRequest (Some "a@x.com") (Some "2") in
  let db' := (Identify inOrder req 3 pairDB).2 in
  let allKnown :=
    somethingSupplied req ∧ known (table pairDB) Email (reqEmail req) ∧
    known (table pairDB) PhoneNumber (reqPhoneNumber req) in
  (allKnown → ID <$> table db' = ID <$> table pairDB) ∧
  (¬ allKnown → ID <$> table db' = (ID <$> table pairDB) ++ [seq pairDB + 1]).
Proof.
  exact (Identify_inserts_unless_known inOrder
           (mkRequest (Some "a@x.com") (Some "2")) 3 pairDB
           inOrder_fair (ids_unique pairDB pairDB_consistent)).
Defined.

(** X9: repeating a request that supplies an email or a phone number
    inserts nothing the second time, whatever the iteration orders and the
    clock readings of the two calls. *)
Theorem Identify_repeated_inserts_nothing
    (o o' : MapOrder) (req : IdentifyRequest) (now now' : Time) (db : DB) :
  fair o → fair o' → consistent db → somethingSupplied req →
  let db1 := (Identify o req now db).2 in
  let db2 := (Identify o' req now' db1).2 in
  ID <$> table db2 = ID <$> table db1.
Proof.
  intros Hfair Hfair' Hdb Hsome db1 db2.
  destruct (Identify_outcome o req now db Hfair Hdb) as (d & HId & Ht & Hd & _).
  destruct (tableAfter_carriers o req now db Hfair) as [He Hp].
  rewrite <- Ht in He, Hp.
  assert (table db1 = table d) as Ht1 by (subst db1; by rewrite HId).
  assert (NoDup (ID <$> table db1)) as Hnd1 by (rewrite Ht1; apply (ids_unique d Hd)).
  subst db2.
  destruct (Identify_result o' req now' db1) as (d2 & -> & Ht2 & _).
  cbn [snd table afterResponse]. rewrite Ht2, tableAfter_ids.
  rewrite (proj2 (inserts_false o' req db1 Hfair' Hnd1)); [by rewrite app_nil_r|].
  split; [done|]. rewrite Ht1. split; intros x Hx.
  - destruct (He x Hx) as (r & [Hg Hin]%list_elem_of_filter & Hf).
    exists r. split; [|done]. split; [done|by destruct Hg].
  - destruct (Hp x Hx) as (r & [Hg Hin]%list_elem_of_filter & Hf).
    exists r. split; [|done]. split; [done|by destruct Hg].
Qed.

Lemma Identify_repeated_inserts_nothing_witness :
  let req := mkRequest (Some "c@x.com") (Some "2") in
  let db1 := (Identify inOrder req 3 pairDB).2 in
  let db2 := (Identify inOrder req 4 db1).2 in
  ID <$> table db1 = [1; 2; 3] ∧ ID <$> table db2 = ID <$> table db1.
Proof.
  split; [vm_compute; reflexivity|].
  apply (Identify_repeated_inserts_nothing inOrder inOrder
           (mkRequest (Some "c@x.com") (Some "2")) 3 4 pairDB
           inOrder_fair inOrder_fair pairDB_consistent).
  left. vm_compute. discriminate.
Defined.

(** ** Independence of the iteration order *)

Lemma touchedOf_distinct_ids o t email phoneNumber :
  fair o → NoDup (ID <$> touchedOf o t email phoneNumber).
Proof.
  intros Hfair. unfold touchedOf, rangeValues.
  set (m := fetchAll _ _ _).
  assert (∀ k c, m !! k = Some c → ID c = k) as Hkey.
  { intros k c Hk. subst m.
    apply fetchAll_lookup in Hk as [Hk|(i & _ & _ & Hid)]; [|done].
    by apply matched_lookup in Hk as (? & _). }
  rewrite (Hfair _ _), <- list_fmap_compose.
  rewrite (list_fmap_ext _ fst (map_to_list m)).
  - apply NoDup_fst_map_to_list.
  - intros _ [k c] Hin%list_elem_of_lookup_2%elem_of_map_to_list. simpl.
    by apply Hkey.
Qed.

Lemma touch_perm pid now l l' r :
  l ≡ₚ l' → touch pid now l r = touch pid now l' r.
Proof.
  intros Hperm. unfold touch. apply decide_ext.
  rewrite !Exists_exists. by setoid_rewrite Hperm.
Qed.

Lemma hasNewInformation_perm l l' email phoneNumber :
  l ≡ₚ l' →
  hasNewInformation l email phoneNumber = hasNewInformation l' email phoneNumber.
Proof.
  intros Hperm.
  pose proof (hasNewInformation_false l email phoneNumber) as H1.
  pose proof (hasNewInformation_false l' email phoneNumber) as H2.
  assert (∀ a b : list Contact, a ≡ₚ b →
            ((∀ x, supplied email = Some x → ∃ c, c ∈ a ∧ Email c = Some x) ∧
             (∀ x, supplied phoneNumber = Some x →
                   ∃ c, c ∈ a ∧ PhoneNumber c = Some x)) →
            ((∀ x, supplied email = Some x → ∃ c, c ∈ b ∧ Email c = Some x) ∧
             (∀ x, supplied phoneNumber = Some x →
                   ∃ c, c ∈ b ∧ PhoneNumber c = Some x))) as Hmove.
  { intros a b Hab [He Hp]. split; intros x Hx.
    - destruct (He x Hx) as (c & Hc & Hf). exists c. by rewrite <- Hab.
    - destruct (Hp x Hx) as (c & Hc & Hf). exists c. by rewrite <- Hab. }
  destruct (hasNewInformation l _ _), (hasNewInformation l' _ _); try done.
  - apply H1, (Hmove l' l); [done|]. by apply H2.
  - symmetry. apply H2, (Hmove l l'); [done|]. by apply H1.
Qed.

Lemma touchedOf_perm o o' t email phoneNumber :
  fair o → fair o' → NoDup (ID <$> t) →
  touchedOf o t email phoneNumber ≡ₚ touchedOf o' t email phoneNumber.
Proof.
  intros Hfair Hfair' Hnd.
  pose proof (touchedOf_distinct_ids o t email phoneNumber Hfair) as H1.
  pose proof (touchedOf_distinct_ids o' t email phoneNumber Hfair') as H2.
  apply NoDup_Permutation; [by eapply NoDup_fmap_1..|].
  intros c. split; intros Hc.
  - by apply touchedOf_complete, (touchedOf_reached o).
  - by apply touchedOf_complete, (touchedOf_reached o').
Qed.

Lemma sortSlice_head_perm T T' :
  T ≡ₚ T' →
  (∀ c d, c ∈ T → d ∈ T → CreatedAt c = CreatedAt d → c = d) →
  head (sortSlice T) = head (sortSlice T').
Proof.
  intros Hperm Hinj.
  destruct (decide (T = [])) as [->|Hne].
  { apply Permutation_nil in Hperm. by subst T'. }
  assert (T' ≠ []) as Hne'.
  { intros ->. by apply Permutation_nil_r in Hperm. }
  destruct (findOldestContact_nonempty T Hne) as (p & rest & -> & _ & Hp & Hmin).
  destruct (findOldestContact_nonempty T' Hne') as (p' & rest' & -> & _ & Hp' & Hmin').
  simpl. f_equal. rewrite <- Hperm in Hp'. apply Hinj; [done..|].
  pose proof (Hmin p' Hp'). rewrite Hperm in Hp. pose proof (Hmin' p Hp). lia.
Qed.

Lemma tableAfter_perm req now db T T' :
  T ≡ₚ T' →
  (∀ c d, c ∈ T → d ∈ T → CreatedAt c = CreatedAt d → c = d) →
  tableAfter req now db T = tableAfter req now db T' ∧
  primaryAfter db T = primaryAfter db T' ∧
  inserts req T = inserts req T'.
Proof.
  intros Hperm Hinj.
  pose proof (sortSlice_head_perm T T' Hperm Hinj) as Hhead.
  assert (sortSlice T ≡ₚ sortSlice T') as Hsorted by (by rewrite !sortSlice_perm).
  unfold tableAfter, primaryAfter, inserts.
  destruct (sortSlice T) as [|p rest] eqn:Hs, (sortSlice T') as [|p' rest'] eqn:Hs';
    try done.
  injection Hhead as <-. rewrite <- Hs, <- Hs' in *.
  rewrite (hasNewInformation_perm _ _ _ _ Hsorted). split; [|done].
  apply list_fmap_ext. intros _ r _. by apply touch_perm.
Qed.

(** X10: when the ids of the table are unique and no two rows were created
    at the same time, the outcome of a call does not depend on the order
    in which Go ranges over its maps: the resulting table, the id counter,
    the primary and the secondary ids are the same, and the emails and
    phone numbers are the same up to their order. *)
Theorem Identify_independent_of_iteration_order
    (o o' : MapOrder) (req : IdentifyRequest) (now : Time) (db : DB) :
  fair o → fair o' → NoDup (ID <$> table db) →
  (∀ c d, c ∈ table db → d ∈ table db → CreatedAt c = CreatedAt d → c = d) →
  table (Identify o req now db).2 = table (Identify o' req now db).2 ∧
  seq (Identify o req now db).2 = seq (Identify o' req now db).2 ∧
  ∃ resp resp',
    (Identify o req now db).1 = Some (mkIdentifyResponse resp) ∧
    (Identify o' req now db).1 = Some (mkIdentifyResponse resp') ∧
    PrimaryContactID resp = PrimaryContactID resp' ∧
    SecondaryContactIDs resp = SecondaryContactIDs resp' ∧
    Emails resp ≡ₚ Emails resp' ∧
    PhoneNumbers resp ≡ₚ PhoneNumbers resp'.
Proof.
  intros Hfair Hfair' Hnd Hinj.
  destruct (Identify_result o req now db) as (d & -> & Ht & Hs).
  destruct (Identify_result o' req now db) as (d' & -> & Ht' & Hs').
  rewrite !findLinkedContacts_fst in *.
  set (T := touchedOf o _ _ _) in *. set (T' := touchedOf o' _ _ _) in *.
  assert (T ≡ₚ T') as Hperm by (by apply touchedOf_perm).
  destruct (tableAfter_perm req now db T T' Hperm) as (Htab & Hpid & Hins).
  { intros c e Hc He. apply Hinj.
    - by apply (touchedOf_reached _ _ _ _ _ Hfair) in Hc as [[? _] _].
    - by apply (touchedOf_reached _ _ _ _ _ Hfair) in He as [[? _] _]. }
  cbn [fst snd table seq afterResponse].
  assert (table d = table d') as Htd by congruence.
  split; [done|]. split; [rewrite Hs, Hs'; by rewrite Hins|].
  eexists _, _. split; [reflexivity|]. split; [reflexivity|].
  rewrite <- Hpid, <- Htd. cbn [PrimaryContactID SecondaryContactIDs Emails
                                 PhoneNumbers project].
  split; [done|]. split; [done|].
  split; (apply Permutation_app; [done|]); by rewrite (Hfair _ _), (Hfair' _ _).
Qed.

Definition backwards : MapOrder := λ _ l, reverse l.

Lemma backwards_fair : fair backwards.
Proof. intros A l. unfold backwards. apply reverse_Permutation. Defined.

Lemma pairDB_times :
  ∀ c d, c ∈ table pairDB → d ∈ table pairDB → CreatedAt c = CreatedAt d → c = d.
Proof.
  intros c d Hc Hd.
  repeat (apply elem_of_cons in Hc as [->|Hc]);
    repeat (apply elem_of_cons in Hd as [->|Hd]);
    try (by apply elem_of_nil in Hc); try (by apply elem_of_nil in Hd);
    simpl; intros Heq; first [reflexivity | discriminate Heq].
Defined.

Lemma Identify_independent_of_iteration_order_witness :
  let req := mkRequest (Some "a@x.com") (Some "2") in
  table (Identify inOrder req 3 pairDB).2 = table (Identify backwards req 3 pairDB).2 ∧
  seq (Identify inOrder req 3 pairDB).2 = seq (Identify backwards req 3 pairDB).2 ∧
  ∃ resp resp',
    (Identify inOrder req 3 pairDB).1 = Some (mkIdentifyResponse resp) ∧
    (Identify backwards req 3 pairDB).1 = Some (mkIdentifyResponse resp') ∧
    PrimaryContactID resp = PrimaryContactID resp' ∧
    SecondaryContactIDs resp = SecondaryContactIDs resp' ∧
    Emails resp ≡ₚ Emails resp' ∧
    PhoneNumbers resp ≡ₚ PhoneNumbers resp'.
Proof.
  exact (Identify_independent_of_iteration_order inOrder backwards
           (mkRequest (Some "a@x.com") (Some "2")) 3 pairDB
           inOrder_fair backwards_fair (ids_unique pairDB pairDB_consistent)
           pairDB_times).
Defined.

(** ** The helpers of the service, one by one *)

(** X11: [findOldestContact] sorts the slice it is given: afterwards the
    slice holds the same records, in non-decreasing order of creation time,
    and the record returned is its first element; nil is returned only for
    an empty slice. *)
Theorem findOldestContact_sorts_in_place (contacts : list Contact) :
  let r := findOldestContact contacts in
  r.1 ≡ₚ contacts ∧ StronglySorted notLater r.1 ∧ r.2 = head r.1 ∧
  (r.2 = None ↔ contacts = []).
Proof.
  destruct contacts as [|c cs].
  { simpl. split_and!; [done|constructor|done|done]. }
  destruct (findOldestContact_nonempty (c :: cs)) as (p & rest & Hs & -> & _); [done|].
  cbn [fst snd]. split_and!.
  - apply sortSlice_perm.
  - apply sortSlice_sorted.
  - by rewrite Hs.
  - done.
Qed.

(** X12: the new-information test looks at the records as a set, and more
    records never make a request newer: if the request is new with respect
    to a slice, it is new with respect to any slice holding no other
    records. *)
Theorem hasNewInformation_antitone
    (l l' : list Contact) (email phoneNumber : option string) :
  (∀ c, c ∈ l → c ∈ l') →
  hasNewInformation l' email phoneNumber = true →
  hasNewInformation l email phoneNumber = true.
Proof.
  intros Hsub Hnew.
  destruct (hasNewInformation l email phoneNumber) eqn:Hl; [done|].
  apply hasNewInformation_false in Hl as [He Hp].
  rewrite <- Hnew. symmetry. apply hasNewInformation_false. split; intros x Hx.
  - destruct (He x Hx) as (c & Hc & Hf). exists c. split; [by apply Hsub|done].
  - destruct (Hp x Hx) as (c & Hc & Hf). exists c. split; [by apply Hsub|done].
Qed.

Lemma hasNewInformation_antitone_witness :
  hasNewInformation [tieA] (Some "a") (Some "2") = true.
Proof.
  apply (hasNewInformation_antitone [tieA] [tieA; tieA] (Some "a") (Some "2")).
  - intros c Hc. apply list_elem_of_singleton in Hc. subst c. left.
  - vm_compute. reflexivity.
Defined.

Lemma queryContacts_fst q P `{∀ c, Decision (P c)} db :
  (queryContacts q P db).1 = filter P (table db).
Proof. done. Qed.

(** X13: a contact that was just created is found again.  Both inserts
    append one row with the next id and return it; the row is returned by
    the queries by its email and by its phone number and by the group query
    for its own id; a secondary is also returned by the query by its linked
    id and by the group query of the record it is linked to, and a
    primary by no query by linked id. *)
Theorem created_contact_is_found
    (email phoneNumber : option string) (linkedID : Z) (now : Time) (db : DB) :
  let p := createPrimaryContact email phoneNumber now db in
  let s := createSecondaryContact email phoneNumber linkedID now db in
  (ID p.1 = seq db + 1 ∧ table p.2 = table db ++ [p.1] ∧ seq p.2 = seq db + 1 ∧
   p.1 ∈ (getAllLinkedContacts (ID p.1) p.2).1 ∧
   (∀ e, email = Some e → p.1 ∈ (queryContactsByEmail e p.2).1) ∧
   (∀ n, phoneNumber = Some n → p.1 ∈ (queryContactsByPhoneNumber n p.2).1) ∧
   (∀ l, p.1 ∉ (queryContactsByLinkedID l p.2).1)) ∧
  (ID s.1 = seq db + 1 ∧ table s.2 = table db ++ [s.1] ∧ seq s.2 = seq db + 1 ∧
   s.1 ∈ (getAllLinkedContacts (ID s.1) s.2).1 ∧
   (∀ e, email = Some e → s.1 ∈ (queryContactsByEmail e s.2).1) ∧
   (∀ n, phoneNumber = Some n → s.1 ∈ (queryContactsByPhoneNumber n s.2).1) ∧
   s.1 ∈ (queryContactsByLinkedID linkedID s.2).1 ∧
   s.1 ∈ (getAllLinkedContacts linkedID s.2).1).
Proof.
  unfold createPrimaryContact, createSecondaryContact.
  rewrite !bind_eq. cbn [nextID insertRow fst snd table seq ID].
  unfold getAllLinkedContacts, queryContactsByEmail, queryContactsByPhoneNumber,
    queryContactsByLinkedID.
  split; (split; [done|]); (split; [done|]); (split; [done|]);
    rewrite ?queryContacts_fst; cbn [table];
    repeat split;
    try (intros x ->);
    try (apply list_elem_of_filter; split;
         [|apply elem_of_app; right; by apply list_elem_of_singleton]);
    try (split; [|done]); try done; try (by left); try (by right).
  intros l [[Hl _] _]%list_elem_of_filter. discriminate Hl.
Qed.

(** X14: updating an id that no row carries is not an error: the statement
    is executed, and the table and the counter stay as they are. *)
Theorem updateContactPrecedence_missing_id
    (id : Z) (precedence : string) (linkedID : option Z) (now : Time) (db : DB) :
  id ∉ (ID <$> table db) →
  updateContactPrecedence id precedence linkedID now db =
  (tt, mkDB (table db) (seq db)
            (trace db ++ [UpdatePrecedence id precedence linkedID])).
Proof.
  intros Hid. unfold updateContactPrecedence. do 2 f_equal.
  rewrite <- (list_fmap_id (table db)) at 2.
  apply list_fmap_ext. intros _ c Hc%list_elem_of_lookup_2. simpl.
  rewrite decide_False; [done|]. intros <-. apply Hid. by apply list_elem_of_fmap_2.
Qed.

Lemma updateContactPrecedence_missing_id_witness :
  updateContactPrecedence 7 "secondary" (Some 1) 9 pairDB =
  (tt, mkDB (table pairDB) (seq pairDB)
            (trace pairDB ++ [UpdatePrecedence 7 "secondary" (Some 1)])).
Proof.
  apply (updateContactPrecedence_missing_id 7 "secondary" (Some 1) 9 pairDB).
  compute_done.
Defined.


(** X16: a normalization pass executes exactly one update for each contact
    of the slice that is not in its target state, in the order of the
    slice, and no other statement. It leaves the counter alone, keeps every
    row in place with its id, email, phone number, creation time and
    deletion mark, and does not touch a row whose id is not in the slice. *)
Theorem reconcilePrimaryStatus_writes_only_what_differs
    (contacts : list Contact) (primaryID : Z) (now : Time) (db : DB) :
  let db' := (reconcilePrimaryStatus contacts primaryID now db).2 in
  trace db' = trace db ++
    ((λ c, UpdatePrecedence (ID c)
             (if decide (ID c = primaryID) then "primary" else "secondary")
             (if decide (ID c = primaryID) then None else Some primaryID))
     <$> filter (λ c, ¬ inTarget primaryID c) contacts) ∧
  seq db' = seq db ∧
  ∀ i r, table db !! i = Some r →
    ∃ r', table db' !! i = Some r' ∧ sameData r r' ∧
          (ID r ∉ (ID <$> contacts) → r' = r).
Proof.
  destruct (reconcile_table primaryID now contacts db) as [Ht Hs].
  cbn zeta. rewrite Ht, Hs. split; [|split; [done|]].
  - rewrite reconcile_spec. cbn [snd].
    assert (updatesOf primaryID contacts =
            (λ c, UpdatePrecedence (ID c)
                    (if decide (ID c = primaryID) then "primary" else "secondary")
                    (if decide (ID c = primaryID) then None else Some primaryID))
            <$> filter (λ c, ¬ inTarget primaryID c) contacts) as <-.
    { unfold updatesOf. apply list_fmap_ext. intros _ c _.
      by destruct (decide (ID c = primaryID)). }
    destruct (decide (Forall _ contacts)) as [Hall|]; [|done].
    unfold updatesOf. rewrite filter_none; [by rewrite app_nil_r|].
    eapply Forall_impl; [exact Hall|]. tauto.
  - intros i r Hi. eexists. rewrite list_lookup_fmap, Hi.
    split; [reflexivity|]. split; [apply touch_sameData|].
    intros Hout. apply touch_foreign. intros c Hc Heq. apply Hout.
    rewrite <- Heq. by apply list_elem_of_fmap_2.
Qed.

(** ** Reads and soft-deleted rows *)

(** The store without its soft-deleted rows. *)
Definition purge (db : DB) : DB :=
  mkDB (filter live (table db)) (seq db) (trace db).

Lemma filter_live (P : Contact → Prop) `{∀ c, Decision (P c)} (t : list Contact) :
  filter (λ c, P c ∧ live c) (filter live t) = filter (λ c, P c ∧ live c) t.
Proof. apply list_filter_filter_l. by intros c [_ ?]. Qed.

Lemma fetchAll_purge t ids m :
  fetchAll (filter live t) ids m = fetchAll t ids m.
Proof.
  unfold fetchAll. revert m. induction ids as [|i ids IH]; intros m; [done|].
  cbn [foldl]. rewrite IH. unfold linkedRows. by rewrite filter_live.
Qed.

(** X17: soft-deleted rows are invisible to every read: discovery finds
    the same records, and the response is the same, as on the store
    without them. *)
Theorem reads_ignore_deleted_rows
    (o : MapOrder) (email phoneNumber : option string) (primaryID : Z) (db : DB) :
  (findLinkedContacts o email phoneNumber db).1
    = (findLinkedContacts o email phoneNumber (purge db)).1 ∧
  (buildResponse o primaryID db).1 = (buildResponse o primaryID (purge db)).1.
Proof.
  split.
  - rewrite !findLinkedContacts_fst. cbn [table purge].
    unfold touchedOf, matched. rewrite fetchAll_purge.
    destruct (supplied email), (supplied phoneNumber); by rewrite ?filter_live.
  - rewrite !buildResponse_eq. cbn [fst table purge]. unfold groupOf.
    by rewrite filter_live.
Qed.

(** X18: asking for the response of an id that no live row carries and no
    live row links to is not an error: the response names that id and its
    three lists are empty. *)
Theorem buildResponse_unknown_id (o : MapOrder) (primaryID : Z) (db : DB) :
  fair o →
  (∀ c, c ∈ table db → live c → ID c ≠ primaryID ∧ LinkedID c ≠ Some primaryID) →
  buildResponse o primaryID db =
  (mkIdentifyResponse (mkResponse primaryID [] [] []),
   mkDB (table db) (seq db) (trace db ++ [SelectGroup primaryID])).
Proof.
  intros Hfair Hnone. rewrite buildResponse_eq.
  assert (groupOf (table db) primaryID = []) as ->.
  { unfold groupOf. apply filter_none, Forall_forall.
    intros c Hc [[Hid|Hl] Hlive]; by destruct (Hnone c Hc Hlive). }
  unfold project, scanContacts, collect. cbn [foldl primaryEmail primaryPhone
                                              secondaryContactIDs].
  rewrite elements_empty.
  assert (o string [] = []) as -> by (apply Permutation_nil_r; by rewrite (Hfair _ _)).
  done.
Qed.

Lemma buildResponse_unknown_id_witness :
  buildResponse inOrder 4 familyDB =
  (mkIdentifyResponse (mkResponse 4 [] [] []),
   mkDB (table familyDB) (seq familyDB) (trace familyDB ++ [SelectGroup 4])).
Proof.
  apply (buildResponse_unknown_id inOrder 4 familyDB inOrder_fair).
  intros c Hc Hlive.
  repeat (apply elem_of_cons in Hc as [->|Hc]);
    try (by apply elem_of_nil in Hc);
    first [ discriminate Hlive | split; [simpl; lia | discriminate] | split; simpl; [lia|intros [= ?]; lia] ].
Defined.

Lemma NoDup_ids_filter (P : Contact → Prop) `{∀ c, Decision (P c)}
    (t : list Contact) :
  NoDup (ID <$> t) → NoDup (ID <$> filter P t).
Proof.
  induction t as [|c t IH]; intros Hnd; [constructor|].
  rewrite fmap_cons in Hnd. apply NoDup_cons in Hnd as [Hc Hnd].
  rewrite filter_cons. destruct (decide _); [|by apply IH].
  rewrite fmap_cons. apply NoDup_cons. split; [|by apply IH].
  intros (d & Heq & [_ Hd]%list_elem_of_filter)%list_elem_of_fmap.
  apply Hc. rewrite Heq. by apply list_elem_of_fmap_2.
Qed.

(** X19: every id among the secondary ids of a response is the id of a
    live row that is linked directly to the primary; the primary's own id
    is never among them, and on a table with unique ids no id is listed
    twice. *)
Theorem buildResponse_secondary_ids (o : MapOrder) (primaryID : Z) (db : DB) :
  let ids := SecondaryContactIDs (Contact_ (buildResponse o primaryID db).1) in
  (∀ id, id ∈ ids ↔
         ∃ c, c ∈ table db ∧ live c ∧ ID c = id ∧ id ≠ primaryID ∧
              LinkedID c = Some primaryID) ∧
  (primaryID ∉ ids) ∧
  (NoDup (ID <$> table db) → NoDup ids).
Proof.
  rewrite buildResponse_eq. cbn [fst Contact_ SecondaryContactIDs project].
  unfold scanContacts. rewrite scan_secondaries. cbn [secondaryContactIDs app].
  assert (∀ id, id ∈ ID <$> filter (λ c, ID c ≠ primaryID) (groupOf (table db) primaryID)
                ↔ ∃ c, c ∈ table db ∧ live c ∧ ID c = id ∧ id ≠ primaryID ∧
                       LinkedID c = Some primaryID) as Hiff.
  { intros id. rewrite list_elem_of_fmap. split.
    - intros (c & -> & [Hne [[[Heq|Hl] Hlive] Hin]%list_elem_of_filter]%list_elem_of_filter);
        [done|]. by exists c.
    - intros (c & Hin & Hlive & <- & Hne & Hl). exists c. split; [done|].
      apply list_elem_of_filter. split; [done|].
      apply list_elem_of_filter. split; [|done]. split; [by right|done]. }
  split; [done|]. split.
  - intros (c & _ & _ & _ & Hne & _)%Hiff. done.
  - intros Hnd. unfold groupOf. by do 2 apply NoDup_ids_filter.
Qed.

Lemma buildResponse_secondary_ids_witness :
  NoDup (SecondaryContactIDs (Contact_ (buildResponse inOrder 1 familyDB).1)) ∧
  (1 ∉ SecondaryContactIDs (Contact_ (buildResponse inOrder 1 familyDB).1)).
Proof.
  destruct (buildResponse_secondary_ids inOrder 1 familyDB) as (_ & Hp & Hnd).
  split; [exact (Hnd familyDB_ids)|exact Hp].
Defined.

(** ** The handler and the service *)


(** X21: the service itself does not reject a request whose fields are
    both nil or empty. It runs no discovery query, inserts a new primary
    row carrying the fields as given, and reads that row's group back. *)
Theorem Identify_blank_request_inserts_primary
    (o : MapOrder) (req : IdentifyRequest) (now : Time) (db : DB) :
  fair o → blank (reqEmail req) → blank (reqPhoneNumber req) →
  let row := mkContact (seq db + 1) (reqPhoneNumber req) (reqEmail req) None
                       "primary" now now None in
  (Identify o req now db).2 =
  mkDB (table db ++ [row]) (seq db + 1)
       (trace db ++ [InsertContact row; SelectGroup (seq db + 1)]).
Proof.
  intros Hfair He Hp row.
  assert (o (Z * Contact)%type [] = []) as Hnil1
    by (apply Permutation_nil_r; by rewrite (Hfair _ _)).
  assert (o Z [] = []) as Hnil2
    by (apply Permutation_nil_r; by rewrite (Hfair _ _)).
  assert (findLinkedContacts o (reqEmail req) (reqPhoneNumber req) db = ([], db))
    as Hfind.
  { apply injective_projections.
    - rewrite findLinkedContacts_fst. unfold touchedOf, matched.
      rewrite (supplied_blank _ He), (supplied_blank _ Hp).
      unfold rangeValues at 2. rewrite map_to_list_empty, Hnil1.
      change (linkedIDsOf ([] : list (Z * Contact)).*2) with (∅ : gset Z).
      rewrite elements_empty, Hnil2. cbn [fetchAll foldl].
      unfold rangeValues. by rewrite map_to_list_empty, Hnil1.
    - rewrite findLinkedContacts_snd. unfold discoveryTrace, matched.
      rewrite (supplied_blank _ He), (supplied_blank _ Hp).
      unfold rangeValues. rewrite map_to_list_empty, Hnil1.
      change (linkedIDsOf ([] : list (Z * Contact)).*2) with (∅ : gset Z).
      rewrite elements_empty, Hnil2. cbn [fmap list_fmap app].
      rewrite app_nil_r. by destruct db. }
  rewrite (Identify_fresh o req now db db Hfind).
  unfold afterResponse, afterInsert. cbn [table seq trace ID primaryRow snd].
  by rewrite <- app_assoc.
Qed.

Lemma Identify_blank_request_inserts_primary_witness :
  let req := mkRequest (Some EmptyString) None in
  let row := mkContact (seq pairDB + 1) (reqPhoneNumber req) (reqEmail req) None
                       "primary" 5 5 None in
  (Identify inOrder req 5 pairDB).2 =
  mkDB (table pairDB ++ [row]) (seq pairDB + 1)
       (trace pairDB ++ [InsertContact row; SelectGroup (seq pairDB + 1)]).
Proof.
  apply (Identify_blank_request_inserts_primary inOrder
           (mkRequest (Some EmptyString) None) 5 pairDB inOrder_fair).
  - right. reflexivity.
  - left. reflexivity.
Defined.

(** ** What holds of every store the service builds *)

(** A row is either a primary without link, or a secondary whose link is
    the id of another row of the table. *)
Definition wellLinked (t : list Contact) : Prop :=
  ∀ c, c ∈ t →
    (LinkPrecedence c = "primary" ∧ LinkedID c = None) ∨
    (LinkPrecedence c = "secondary" ∧
     ∃ l, LinkedID c = Some l ∧ l ≠ ID c ∧ l ∈ (ID <$> t)).

Lemma wellLinked_tableAfter o req now db :
  fair o → consistent db → wellLinked (table db) →
  wellLinked (tableAfter req now db
                (findLinkedContacts o (reqEmail req) (reqPhoneNumber req) db).1).
Proof.
  intros Hfair Hdb Hwl.
  set (T := (findLinkedContacts o (reqEmail req) (reqPhoneNumber req) db).1).
  intros r Hr. rewrite tableAfter_ids.
  assert (∀ c, c ∈ table db →
            (LinkPrecedence c = "primary" ∧ LinkedID c = None) ∨
            (LinkPrecedence c = "secondary" ∧
             ∃ l, LinkedID c = Some l ∧ l ≠ ID c ∧
                  l ∈ (ID <$> table db) ++
                      (if inserts req T then [seq db + 1] else []))) as Hold.
  { intros c Hc. destruct (Hwl c Hc) as [?|(? & l & ? & ? & ?)]; [by left|].
    right. split; [done|]. exists l. split_and!; [done..|].
    apply elem_of_app. by left. }
  unfold tableAfter in Hr.
  destruct (sortSlice T) as [|p rest] eqn:Hsort.
  { apply elem_of_app in Hr as [Hr|Hr%list_elem_of_singleton]; [by apply Hold|].
    subst r. by left. }
  rewrite <- Hsort in Hr.
  assert (p ∈ table db) as Hp.
  { assert (p ∈ T) as HpT by (rewrite <- sortSlice_perm, Hsort; left).
    subst T. rewrite findLinkedContacts_fst in HpT.
    by apply (touchedOf_reached _ _ _ _ _ Hfair) in HpT as [[? _] _]. }
  pose proof (ids_bounded db Hdb p Hp) as Hbound.
  assert (ID p ∈ (ID <$> table db) ++ (if inserts req T then [seq db + 1] else []))
    as Hpid by (apply elem_of_app; left; by apply list_elem_of_fmap_2).
  apply list_elem_of_fmap in Hr as (r0 & -> & Hr0).
  unfold touch. destruct (decide (Exists _ _)).
  - unfold normalized. destruct (decide (ID r0 = ID p)) as [Heq|Hne]; simpl.
    + by left.
    + right. split; [done|]. exists (ID p). split_and!; [done|congruence|done].
  - destruct (hasNewInformation _ _ _); [|by apply Hold].
    apply elem_of_app in Hr0 as [?|Hr0%list_elem_of_singleton]; [by apply Hold|].
    subst r0. right. split; [done|]. exists (ID p). simpl.
    split_and!; [done|lia|done].
Qed.

(** The ids of the table are 1, 2, ... up to the counter, in the order of
    insertion. *)
Definition dense (db : DB) : Prop :=
  0 ≤ seq db ∧ ID <$> table db = seqZ 1 (seq db).

Lemma dense_consistent_ids db :
  dense db → NoDup (ID <$> table db) ∧ ∀ c, c ∈ table db → ID c ≤ seq db.
Proof.
  intros [Hpos Hids]. split.
  - rewrite Hids. apply NoDup_seqZ.
  - intros c Hc. apply (list_elem_of_fmap_2 ID) in Hc. rewrite Hids in Hc.
    apply elem_of_seqZ in Hc. lia.
Qed.

Lemma Identify_shape_step o req now db :
  fair o → consistent db → wellLinked (table db) →
  ∃ resp, (Identify o req now db).1 = Some resp ∧
  consistent (Identify o req now db).2 ∧
  wellLinked (table (Identify o req now db).2) ∧
  (Forall live (table db) → Forall live (table (Identify o req now db).2)) ∧
  (dense db → dense (Identify o req now db).2).
Proof.
  intros Hfair Hdb Hwl.
  destruct (Identify_outcome o req now db Hfair Hdb) as (d & HId & Ht & Hd & _).
  destruct (Identify_result o req now db) as (d2 & HId2 & Ht2 & Hs2).
  rewrite HId2. cbn [fst snd]. eexists. split; [reflexivity|]. split_and!.
  - pose proof (f_equal snd HId) as Heq. rewrite HId2 in Heq. cbn [snd] in Heq.
    unfold afterResponse in Heq. injection Heq as Htd Hsd _.
    apply (consistent_reads d); [done|done..].
  - cbn [table afterResponse]. rewrite Ht2. by apply wellLinked_tableAfter.
  - cbn [table afterResponse]. rewrite Ht2. intros Hlive.
    unfold tableAfter.
    destruct (sortSlice _) as [|p rest] eqn:Hsort.
    + apply Forall_app. split; [done|]. by constructor.
    + rewrite <- Hsort. apply Forall_fmap.
      assert (Forall live (table db)) as Hl by done.
      destruct (hasNewInformation _ _ _).
      * apply Forall_app. split.
        -- eapply Forall_impl; [exact Hl|]. intros c Hc. by apply touch_live.
        -- constructor; [|constructor]. by apply touch_live.
      * eapply Forall_impl; [exact Hl|]. intros c Hc. by apply touch_live.
  - intros [Hpos Hids]. unfold dense. cbn [table seq afterResponse].
    rewrite Ht2, Hs2, tableAfter_ids, Hids.
    destruct (inserts _ _).
    + split; [lia|]. rewrite (seqZ_app 1 (seq db) 1) by lia.
      f_equal. rewrite Z.add_comm. done.
    + by rewrite app_nil_r.
Qed.

(** X22: one call keeps the store in shape. If ids are unique and bounded
    by the counter and every row is a primary without link or a secondary
    linked to another existing row, the same holds after the call; rows
    that were live stay live, and ids that were 1..n in insertion order
    stay so. *)
Theorem Identify_keeps_store_in_shape
    (o : MapOrder) (req : IdentifyRequest) (now : Time) (db : DB) :
  fair o → consistent db → wellLinked (table db) →
  let db' := (Identify o req now db).2 in
  consistent db' ∧ wellLinked (table db') ∧
  (Forall live (table db) → Forall live (table db')) ∧
  (dense db → dense db').
Proof.
  intros Hfair Hdb Hwl.
  by destruct (Identify_shape_step o req now db Hfair Hdb Hwl)
    as (_ & _ & ? & ? & ? & ?).
Qed.

Lemma pairDB_wellLinked : wellLinked (table pairDB).
Proof.
  intros c Hc. repeat (apply elem_of_cons in Hc as [->|Hc]).
  - left. split; reflexivity.
  - left. split; reflexivity.
  - by apply elem_of_nil in Hc.
Defined.

Lemma Identify_keeps_store_in_shape_witness :
  let db' := (Identify inOrder (mkRequest (Some "a@x.com") (Some "2")) 3 pairDB).2 in
  consistent db' ∧ wellLinked (table db') ∧
  (Forall live (table pairDB) → Forall live (table db')) ∧
  (dense pairDB → dense db').
Proof.
  exact (Identify_keeps_store_in_shape inOrder
           (mkRequest (Some "a@x.com") (Some "2")) 3 pairDB
           inOrder_fair pairDB_consistent pairDB_wellLinked).
Defined.

(** X23: every sequence of calls on the empty store runs to the end, each
    call returning a response, and the store it leaves has unique ids
    1..n in insertion order, no soft-deleted row, and only primaries
    without link and secondaries linked to another existing row. *)
Theorem runCalls_from_empty_store (calls : list Call) :
  Forall (λ c, fair (callOrder c)) calls →
  ∃ db, runCalls calls emptyDB = Some db ∧
        consistent db ∧ wellLinked (table db) ∧
        Forall live (table db) ∧ dense db.
Proof.
  assert (∀ db, consistent db ∧ wellLinked (table db) ∧
                Forall live (table db) ∧ dense db →
                Forall (λ c, fair (callOrder c)) calls →
                ∃ db', runCalls calls db = Some db' ∧
                       consistent db' ∧ wellLinked (table db') ∧
                       Forall live (table db') ∧ dense db') as Hgen.
  { induction calls as [|c calls IH]; intros db Hinv Hfair.
    { by exists db. }
    apply Forall_cons in Hfair as [Hc Hfair].
    destruct Hinv as (Hdb & Hwl & Hlive & Hdense).
    cbn [runCalls]. unfold identify.
    destruct (Identify_shape_step (callOrder c)
                (mkRequest (callEmail c) (callPhone c)) (callTime c) db Hc Hdb Hwl)
      as (resp & H1 & H2 & H3 & H4 & H5).
    destruct (Identify _ _ _ db) as [[r|] db1]; [|done].
    apply IH; [|done]. cbn [snd] in *. auto. }
  intros Hfair. apply Hgen; [|done].
  split_and!.
  - apply emptyDB_consistent.
  - intros c Hc. by apply elem_of_nil in Hc.
  - constructor.
  - split; [done|]. done.
Qed.

Lemma runCalls_from_empty_store_witness :
  ∃ db, runCalls (mergeCalls ++ [mergeCall]) emptyDB = Some db ∧
        consistent db ∧ wellLinked (table db) ∧
        Forall live (table db) ∧ dense db.
Proof.
  apply (runCalls_from_empty_store (mergeCalls ++ [mergeCall])).
  repeat (apply Forall_cons; split; [exact inOrder_fair|]).
  apply Forall_nil_2.
Defined.
